(** * Verification of [scor]: normalising measurements into scores in [0,1]

    Shallow embedding of the TypeScript module [scor.ts].  Three snapshots of
    the module are embedded:
    - [ScorV1]: [src/scor.ts] (lines 1-467): Scores without weight, weights
      passed separately to [distributeWeights] and [createToMean];
    - [ScorW]: [src/unnamed/part_001]: Scores carrying a [weight] field,
      [distributeWeights] over Scores and an unweighted [createToMean];
    - [ScorOld]: the earlier [scor] kept at the end of [src/scor.ts]
      (lines 469-567), whose functions throw [Error(INVALID_RANGE)].

    JavaScript numbers are IEEE-754 binary64 values, modelled by Rocq's
    primitive floats ([PrimFloat]); every arithmetic operation and comparison
    of the source is the corresponding primitive operation. *)

From Stdlib Require Import ZArith List String Bool Permutation Lia.
From Stdlib Require Import Floats.
From Stdlib Require Uint63.
Import ListNotations.

Open Scope string_scope.

(** ** JavaScript values, errors and the throw monad *)

(** The values an extractor ([toValue]) can produce at run time: the type
    says [number], but the spec also considers [null] and [undefined]. *)
Inductive jsval :=
| JNum (x : float)
| JUndefined
| JNull.

(** JavaScript's [ToNumber] on these primitives. *)
Definition to_number (v : jsval) : float :=
  match v with
  | JNum x => x
  | JUndefined => nan
  | JNull => zero
  end.

(** Thrown exceptions.  [RangeError] and [TypeError] are the library's own;
    [Thrown] stands for any other value a caller-supplied function throws.
    Messages are the source's message text; values interpolated into a
    template literal are left as the [${...}] placeholder. *)
Inductive js_error :=
| RangeError (msg : string)
| TypeError (msg : string)
| Thrown (payload : nat).

Inductive result (A : Type) :=
| Ok (a : A)
| Err (e : js_error).
Arguments Ok {A} a.
Arguments Err {A} e.

Definition bind {A B} (m : result A) (f : A -> result B) : result B :=
  match m with
  | Ok a => f a
  | Err e => Err e
  end.

Notation "'let*' x ':=' m 'in' f" := (bind m (fun x => f))
  (at level 200, x name, m at level 100, f at level 200).

(** [Array.prototype.map] with a callback that may throw: items are visited
    in order and the first exception propagates. *)
Fixpoint map_js {A B} (f : A -> result B) (l : list A) : result (list B) :=
  match l with
  | [] => Ok []
  | x :: r => let* y := f x in let* ys := map_js f r in Ok (y :: ys)
  end.

Definition is_range_error (e : js_error) : bool :=
  match e with RangeError _ => true | _ => false end.

Definition is_type_error (e : js_error) : bool :=
  match e with TypeError _ => true | _ => false end.

(** [String.prototype.startsWith]. *)
Fixpoint starts_with (pre s : string) : bool :=
  match pre, s with
  | EmptyString, _ => true
  | String a pre', String b s' => Ascii.eqb a b && starts_with pre' s'
  | String _ _, EmptyString => false
  end.

(** ** Shared helpers of the module *)

Definition INVALID_RANGE : string := "Invalid range".
Definition MISSING_TO_VALUE : string := "Missing toValue".

(** [isNumeric] on a number: [-Infinity < x && x < Infinity]. *)
Definition isNumeric_f (x : float) : bool :=
  (neg_infinity <? x)%float && (x <? infinity)%float.

(** [isNumeric]: [typeof x === "number" && -Infinity < x && x < Infinity]. *)
Definition isNumeric (v : jsval) : bool :=
  match v with
  | JNum x => isNumeric_f x
  | _ => false
  end.

(** [isNumeric] on an optional number ([number | undefined]). *)
Definition isNumeric_o (w : option float) : bool :=
  match w with
  | Some x => isNumeric_f x
  | None => false
  end.

(** [forValueNotAllowed]: always throws. *)
Definition forValueNotAllowed {A} (_ : A) : result float :=
  Err (RangeError INVALID_RANGE).

(** [getZero]. *)
Definition getZero {A} (_ : A) : result float := Ok zero.

(** The [forValue] closure built by [scor] for a range with [min < max]:
    [if (value <= min || !isNumeric(value)) return 0;
     if (value >= max) return 1;
     return (value - min) / maxFromZero;]  with [maxFromZero = max - min]. *)
Definition forValue_in (mn mx : float) (value : jsval) : result float :=
  let maxFromZero := (mx - mn)%float in
  if (to_number value <=? mn)%float || negb (isNumeric value) then Ok zero
  else if (mx <=? to_number value)%float then Ok one
  else Ok ((to_number value - mn) / maxFromZero)%float.

(** The [forItem] closure for [min < max]:
    [toValue ? (item) => forValue(toValue(item)) : () => throw TypeError]. *)
Definition forItem_in {T} (mn mx : float) (toValue : option (T -> result jsval))
  : T -> result float :=
  match toValue with
  | Some tv => fun item => let* v := tv item in forValue_in mn mx v
  | None => fun _ => Err (TypeError MISSING_TO_VALUE)
  end.

(** [toNumericSum]: a reducer summing the numeric values of a list. *)
Definition toNumericSum (sum : float) (value : option float) : result float :=
  if negb (isNumeric_f sum)
  then Err (RangeError (INVALID_RANGE ++ ": expected sum to be numeric, but was ${sum}."))
  else if negb (isNumeric_o value) then Ok sum
  else match value with Some v => Ok (sum + v)%float | None => Ok sum end.

(** [Array.prototype.reduce] with an initial value and a throwing reducer. *)
Fixpoint reduce_js {A B} (f : B -> A -> result B) (l : list A) (acc : B) : result B :=
  match l with
  | [] => Ok acc
  | x :: r => let* acc' := f acc x in reduce_js f r acc'
  end.

(** A JavaScript array length as a number. *)
Definition float_of_nat (n : nat) : float := of_uint63 (Uint63.of_Z (Z.of_nat n)).

(** [reduce] whose callback also receives the index ([(acc, x, i) => ...]). *)
Fixpoint reduce_idx {A B} (f : B -> A -> nat -> result B) (l : list A) (i : nat) (acc : B)
  : result B :=
  match l with
  | [] => Ok acc
  | x :: r => let* acc' := f acc x i in reduce_idx f r (S i) acc'
  end.

(** [Object.is(x, -0)] and [Object.is(x, +0)]. *)
Definition is_neg_zero (x : float) : bool := Leibniz.eqb x neg_zero.
Definition is_pos_zero (x : float) : bool := Leibniz.eqb x zero.

(** [Math.min(...xs)], following ECMAScript: start at [+Infinity]; a [NaN]
    argument makes the result [NaN]; [-0] is considered smaller than [+0]. *)
Fixpoint math_min_from (lowest : float) (xs : list float) : float :=
  match xs with
  | [] => lowest
  | number :: rest =>
      if is_nan number then nan
      else
        let lowest1 := if is_neg_zero number && is_pos_zero lowest then number else lowest in
        let lowest2 := if (number <? lowest1)%float then number else lowest1 in
        math_min_from lowest2 rest
  end.

Definition math_min (xs : list float) : float := math_min_from infinity xs.

(** [Math.max(...xs)]: start at [-Infinity]; [+0] is considered larger than [-0]. *)
Fixpoint math_max_from (highest : float) (xs : list float) : float :=
  match xs with
  | [] => highest
  | number :: rest =>
      if is_nan number then nan
      else
        let highest1 := if is_pos_zero number && is_neg_zero highest then number else highest in
        let highest2 := if (highest1 <? number)%float then number else highest1 in
        math_max_from highest2 rest
  end.

Definition math_max (xs : list float) : float := math_max_from neg_infinity xs.

(** [.filter(isNumeric)] on the extracted values, keeping the numbers. *)
Fixpoint filter_numeric (vs : list jsval) : list float :=
  match vs with
  | [] => []
  | JNum x :: r => if isNumeric_f x then x :: filter_numeric r else filter_numeric r
  | _ :: r => filter_numeric r
  end.

(** The two argument shapes of [distributeWeights] and [createToMean]: an
    array, or a plain object given by its own enumerable properties in
    enumeration order (the order of [Object.keys] / [Object.values]). *)
Inductive coll (A : Type) :=
| CList (l : list A)
| CDict (d : list (string * A)).
Arguments CList {A} l.
Arguments CDict {A} d.

(** [Object.values]. *)
Definition values {A} (c : coll A) : list A :=
  match c with
  | CList l => l
  | CDict d => map snd d
  end.

(** Property access [record[key]] guarded by [hasOwnProperty]. *)
Fixpoint lookup_key {A} (key : string) (d : list (string * A)) : option A :=
  match d with
  | [] => None
  | (k, v) :: r => if String.eqb k key then Some v else lookup_key key r
  end.

(** ** [src/scor.ts]: Scores without weight, weights passed separately *)
Module ScorV1.

(** [OptionsArg<T>]: every option may be missing ([undefined]). *)
Record OptionsArg (T : Type) := mkOptions {
  o_min : option float;
  o_max : option float;
  o_toValue : option (T -> result jsval)
}.
Arguments mkOptions {T} o_min o_max o_toValue.
Arguments o_min {T} o.
Arguments o_max {T} o.
Arguments o_toValue {T} o.

(** [Scor<T>]: the stored options and the two scoring closures. *)
Record Scor (T : Type) := mkScor {
  min : option float;
  max : option float;
  toValue : option (T -> result jsval);
  forItem : T -> result float;
  forValue : jsval -> result float
}.
Arguments mkScor {T} min max toValue forItem forValue.
Arguments min {T} s.
Arguments max {T} s.
Arguments toValue {T} s.
Arguments forItem {T} s _.
Arguments forValue {T} s _.

(** [scor]. *)
Definition scor {T} (o : OptionsArg T) : result (Scor T) :=
  let min := o_min o in
  let max := o_max o in
  let toValue := o_toValue o in
  if match min with Some m => negb (isNumeric_f m) | None => false end then
    Err (RangeError (INVALID_RANGE ++ ": Expected min to be numeric"))
  else if match max with Some m => negb (isNumeric_f m) | None => false end then
    Err (RangeError (INVALID_RANGE ++ ": Expected max to be numeric"))
  else
    match min, max with
    | Some mn, Some mx =>
        if (mx <? mn)%float then
          Err (RangeError (INVALID_RANGE ++ ": Expected min(${min}) < max(${max})"))
        else if (mn =? mx)%float then
          Ok (mkScor min max toValue getZero getZero)
        else
          Ok (mkScor min max toValue (forItem_in mn mx toValue) (forValue_in mn mx))
    | _, _ => Ok (mkScor min max toValue forValueNotAllowed forValueNotAllowed)
    end.

(** [getItemRange]. *)
Definition getItemRange {T} (toValue : T -> result jsval) (items : list T)
  : result (float * float) :=
  let* extracted := map_js toValue items in
  let values := filter_numeric extracted in
  match values with
  | [] => Err (RangeError (INVALID_RANGE ++ ": Expected at least one numeric value."))
  | _ => Ok (math_min values, math_max values)
  end.

(** [scorForItems]. *)
Definition scorForItems {T} (toValue : T -> result jsval) (items : list T)
  : result (Scor T) :=
  let* range := getItemRange toValue items in
  scor (mkOptions (Some (fst range)) (Some (snd range)) (Some toValue)).

Definition setMin {T} (s : Scor T) (min : float) :=
  scor (mkOptions (Some min) (max s) (toValue s)).
Definition setMax {T} (s : Scor T) (max : float) :=
  scor (mkOptions (min s) (Some max) (toValue s)).
Definition setRange {T} (s : Scor T) (min max : float) :=
  scor (mkOptions (Some min) (Some max) (toValue s)).
Definition setToValue {T} (s : Scor T) (toValue : T -> result jsval) :=
  scor (mkOptions (min s) (max s) (Some toValue)).

(** [sumAndCountWeights]: sum of the defined weights, count of undefined ones. *)
Definition sumAndCountWeights (acc : float * nat) (weight : option float)
  : result (float * nat) :=
  let (numericSum, undefinedWeights) := acc in
  if match weight with
     | Some w => negb (isNumeric_f w) || (w <? zero)%float
     | None => false
     end
  then Err (RangeError (INVALID_RANGE ++ ": Expected all (defined) weights to be numeric and >= 0"))
  else match weight with
       | Some w => if isNumeric_f w then Ok ((numericSum + w)%float, undefinedWeights)
                   else Ok (numericSum, S undefinedWeights)
       | None => Ok (numericSum, S undefinedWeights)
       end.

(** [assertWeights]: [true] when every weight is defined. *)
Definition assertWeights (weights : list (option float)) : result bool :=
  if Nat.eqb (List.length weights) 0 then Err (TypeError "Expected at least one weight.")
  else
    let* acc := reduce_js sumAndCountWeights weights (zero, 0%nat) in
    let (numericSum, undefinedWeights) := acc in
    if Nat.eqb undefinedWeights 0 then
      if (numericSum =? zero)%float then
        Err (RangeError (INVALID_RANGE ++ ": expected sum to be > 0 when all weights are defined."))
      else Ok true
    else Ok false.

(** [distributeWeights] over an array or a record of optional weights. *)
Definition distributeWeights (weightListOrDict : coll (option float))
  : result (coll (option float)) :=
  let weights := values weightListOrDict in
  let* allDefined := assertWeights weights in
  if allDefined then Ok weightListOrDict
  else
    let* acc := reduce_js sumAndCountWeights weights (zero, 0%nat) in
    let (numericSum, undefinedWeights) := acc in
    let remaining := (one - numericSum)%float in
    let perUndefinedWeight :=
      if (zero <? remaining)%float then (remaining / float_of_nat undefinedWeights)%float
      else zero in
    let toNumericWeight (weight : option float) :=
      if isNumeric_o weight then weight else Some perUndefinedWeight in
    Ok match weightListOrDict with
       | CList l => CList (map toNumericWeight l)
       | CDict d => CDict (map (fun ks => (fst ks, toNumericWeight (snd ks))) d)
       end.

(** The overloads of [createToMean]: an array of Scores with an optional
    array of weights, or a record of Scores with an optional record of weights. *)
Inductive MeanInput (T : Type) :=
| MList (scores : list (Scor T)) (weights : option (list float))
| MDict (scores : list (string * Scor T)) (weights : option (list (string * float))).
Arguments MList {T} scores weights.
Arguments MDict {T} scores weights.

(** [createToMean]. *)
Definition createToMean {T} (listOrRecord : MeanInput T) : result (T -> result float) :=
  let scores := match listOrRecord with
                | MList l _ => l
                | MDict d _ => map snd d
                end in
  let hasWeights := match listOrRecord with
                    | MList _ w => match w with Some _ => true | None => false end
                    | MDict _ w => match w with Some _ => true | None => false end
                    end in
  let* weightsList :=
    match listOrRecord with
    | MList _ (Some ws) => Ok ws
    | MDict d (Some wd) =>
        map_js (fun key => match lookup_key key wd with
                           | Some w => Ok w
                           | None => Err (TypeError
                               "Expected same keys scores and weights, but missing key '${key}'.")
                           end) (map fst d)
    | _ => Ok []
    end in
  if Nat.eqb (List.length scores) 0 then
    Err (TypeError "Expected at least one element in scores.")
  else if existsb (fun s => match toValue s with None => true | Some _ => false end
                            || negb (isNumeric_o (min s)) || negb (isNumeric_o (max s))) scores
  then Err (TypeError "Expected all scores to have `toValue`, numeric `min` and `max`.")
  else
    let* _ := (if hasWeights then
                 if negb (Nat.eqb (List.length weightsList) (List.length scores)) then
                   Err (TypeError "Expected scores and weights to have same length.")
                 else
                   let* allDefined := assertWeights (map Some weightsList) in
                   if allDefined then Ok tt
                   else Err (RangeError "Expected all weights to be numeric.")
               else Ok tt) in
    match scores with
    | [score] => Ok (forItem score)
    | _ =>
        let* divisor := (if hasWeights then reduce_js toNumericSum (map Some weightsList) zero
                         else Ok (float_of_nat (List.length scores))) in
        let weighted (value : float) (index : nat) : float :=
          if hasWeights then (value * nth index weightsList zero)%float else value in
        Ok (fun item =>
              let* sum := reduce_idx (fun sum score i =>
                                        let* v := forItem score item in
                                        Ok (sum + weighted v i)%float) scores 0 zero in
              Ok (sum / divisor)%float)
    end.

(** The Scores of either overload, as [createToMean] computes [scores]. *)
Definition scores_of {T} (m : MeanInput T) : list (Scor T) :=
  match m with
  | MList l _ => l
  | MDict d _ => map snd d
  end.

(** Whether weights were passed. *)
Definition has_weights {T} (m : MeanInput T) : bool :=
  match m with
  | MList _ w | MDict _ w => match w with Some _ => true | None => false end
  end.

(** [ws] are the supplied weights, listed in the order of the Scores. *)
Definition weights_in_order {T} (m : MeanInput T) (ws : list float) : Prop :=
  match m with
  | MList _ (Some l) => ws = l
  | MDict d (Some wd) => Forall2 (fun key w => lookup_key key wd = Some w) (map fst d) ws
  | _ => False
  end.

End ScorV1.

(** ** [src/unnamed/part_001]: Scores carrying a [weight] *)
Module ScorW.

Record OptionsArg (T : Type) := mkOptions {
  o_min : option float;
  o_max : option float;
  o_toValue : option (T -> result jsval);
  o_weight : option float
}.
Arguments mkOptions {T} o_min o_max o_toValue o_weight.
Arguments o_min {T} o.
Arguments o_max {T} o.
Arguments o_toValue {T} o.
Arguments o_weight {T} o.

Record Scor (T : Type) := mkScor {
  min : option float;
  max : option float;
  toValue : option (T -> result jsval);
  weight : option float;
  forItem : T -> result float;
  forValue : jsval -> result float
}.
Arguments mkScor {T} min max toValue weight forItem forValue.
Arguments min {T} s.
Arguments max {T} s.
Arguments toValue {T} s.
Arguments weight {T} s.
Arguments forItem {T} s _.
Arguments forValue {T} s _.

(** [scor], with the [weight] check. *)
Definition scor {T} (o : OptionsArg T) : result (Scor T) :=
  let min := o_min o in
  let max := o_max o in
  let toValue := o_toValue o in
  let weight := o_weight o in
  if match min with Some m => negb (isNumeric_f m) | None => false end then
    Err (RangeError (INVALID_RANGE ++ ": Expected min to be numeric"))
  else if match max with Some m => negb (isNumeric_f m) | None => false end then
    Err (RangeError (INVALID_RANGE ++ ": Expected max to be numeric"))
  else if match weight with
          | Some w => negb (isNumeric_f w) || (w <? zero)%float
          | None => false
          end then
    Err (RangeError (INVALID_RANGE ++ ": Expected weight to be numeric and >= 0"))
  else
    match min, max with
    | Some mn, Some mx =>
        if (mx <? mn)%float then
          Err (RangeError (INVALID_RANGE ++ ": Expected min(${min}) < max(${max})"))
        else if (mn =? mx)%float then
          Ok (mkScor min max toValue weight getZero getZero)
        else
          Ok (mkScor min max toValue weight (forItem_in mn mx toValue) (forValue_in mn mx))
    | _, _ => Ok (mkScor min max toValue weight forValueNotAllowed forValueNotAllowed)
    end.

Definition setMin {T} (s : Scor T) (min : float) :=
  scor (mkOptions (Some min) (max s) (toValue s) (weight s)).
Definition setMax {T} (s : Scor T) (max : float) :=
  scor (mkOptions (min s) (Some max) (toValue s) (weight s)).
Definition setRange {T} (s : Scor T) (min max : float) :=
  scor (mkOptions (Some min) (Some max) (toValue s) (weight s)).
Definition setToValue {T} (s : Scor T) (toValue : T -> result jsval) :=
  scor (mkOptions (min s) (max s) (Some toValue) (weight s)).
Definition setWeight {T} (s : Scor T) (weight : option float) :=
  scor (mkOptions (min s) (max s) (toValue s) weight).

(** [distributeWeights] over an array or a record of Scores. *)
Definition distributeWeights {T} (scores : coll (Scor T)) : result (coll (Scor T)) :=
  let weights := map weight (values scores) in
  let withoutWeight := (List.length weights - List.length (filter isNumeric_o weights))%nat in
  if Nat.eqb withoutWeight 0 then Ok scores
  else
    let* sum := reduce_js toNumericSum weights zero in
    let remaining := (one - sum)%float in
    let toNumericWeight (s : Scor T) : result (Scor T) :=
      if isNumeric_o (weight s) then Ok s
      else setWeight s (Some (if (zero <? remaining)%float
                              then (remaining / float_of_nat withoutWeight)%float
                              else zero)) in
    match scores with
    | CList l => let* l' := map_js toNumericWeight l in Ok (CList l')
    | CDict d =>
        let* d' := map_js (fun ks => let* s' := toNumericWeight (snd ks) in Ok (fst ks, s')) d in
        Ok (CDict d')
    end.

(** [createToMean] (arithmetic mean only). *)
Definition createToMean {T} (listOrRecord : coll (Scor T)) : result (T -> result float) :=
  let scores := values listOrRecord in
  if Nat.eqb (List.length scores) 0 then Err (TypeError "Expected at least one element.")
  else if existsb (fun s => match toValue s with None => true | Some _ => false end
                            || negb (isNumeric_o (min s))) scores
  then Err (TypeError "Expected all scores to have `toValue`, numeric `min` and `max`.")
  else
    match scores with
    | [score] => Ok (forItem score)
    | _ =>
        Ok (fun item =>
              let* sum := reduce_js (fun sum score =>
                                       let* v := forItem score item in
                                       Ok (sum + v)%float) scores zero in
              Ok (sum / float_of_nat (List.length scores))%float)
    end.

End ScorW.

(** ** The order of binary64 numbers

    [SFcompare], the specification of the primitive comparisons, is a
    lexicographic comparison of the sign, exponent and mantissa.  We make
    this explicit with a key in [list Z]; the last component separates [-0]
    from [+0], which [Math.min] and [Math.max] distinguish. *)

Fixpoint lexZ (a b : list Z) : comparison :=
  match a, b with
  | [], [] => Eq
  | [], _ :: _ => Lt
  | _ :: _, [] => Gt
  | x :: a', y :: b' =>
      match Z.compare x y with
      | Eq => lexZ a' b'
      | c => c
      end
  end.

Definition key3 (x : spec_float) : list Z :=
  match x with
  | S754_infinity true => [0; 0; 0]
  | S754_finite true m e => [1; - e; - Zpos m]
  | S754_zero _ => [2; 0; 0]
  | S754_finite false m e => [3; e; Zpos m]
  | S754_infinity false => [4; 0; 0]
  | S754_nan => [5; 0; 0]
  end%Z.

Definition zsign (x : spec_float) : Z :=
  match x with
  | S754_zero false => 1
  | _ => 0
  end%Z.

Definition key4 (x : spec_float) : list Z := key3 x ++ [zsign x].

(** The total order of [Math.min]/[Math.max] on non-[NaN] numbers. *)
Definition jcmp (x y : float) : comparison := lexZ (key4 (Prim2SF x)) (key4 (Prim2SF y)).

(** The reversed order, under which [Math.max] picks the least element. *)
Definition jcmp_rev (a b : float) : comparison := jcmp b a.

Definition not_nan (x : float) : Prop := is_nan x = false.

(** One step of [Math.min] under an order [cmp]: keep the accumulator unless
    the new element is strictly smaller. *)
Definition pick {A} (cmp : A -> A -> comparison) (acc x : A) : A :=
  match cmp x acc with Lt => x | _ => acc end.

(** ** Reference formulas *)

(** A sum over a list, added from left to right as [reduce] does. *)
Definition fsum (xs : list float) : float := fold_left (fun a b => (a + b)%float) xs zero.

(** The products [x_i * w_i], pairwise. *)
Definition products (xs ws : list float) : list float :=
  map (fun p => (fst p * snd p)%float) (combine xs ws).

(** [sum(x_i * w_i) / sum(w_i)]. *)
Definition weighted_mean (xs ws : list float) : float :=
  (fsum (products xs ws) / fsum ws)%float.

(** The defined entries of a list of optional weights. *)
Fixpoint defined (ws : list (option float)) : list float :=
  match ws with
  | [] => []
  | Some x :: r => x :: defined r
  | None :: r => defined r
  end.

(** The number of [undefined] entries. *)
Fixpoint count_undefined (ws : list (option float)) : nat :=
  match ws with
  | [] => 0
  | Some _ :: r => count_undefined r
  | None :: r => S (count_undefined r)
  end.

(** A weight the library accepts: finite and not negative. *)
Definition valid_weight (w : float) : bool := isNumeric_f w && negb (w <? zero)%float.

Definition valid_opt_weight (w : option float) : bool :=
  match w with Some x => valid_weight x | None => true end.

(** A bound the constructor accepts: missing, or finite. *)
Definition valid_bound (b : option float) : bool :=
  match b with Some m => isNumeric_f m | None => true end.

(** Mapping the entries of an array or a record, keeping the keys. *)
Definition cmap {A B} (f : A -> B) (c : coll A) : coll B :=
  match c with
  | CList l => CList (map f l)
  | CDict d => CDict (map (fun kv => (fst kv, f (snd kv))) d)
  end.

(** Two containers of the same kind, with the same keys in the same order. *)
Definition same_keys {A B} (c : coll A) (c' : coll B) : Prop :=
  match c, c' with
  | CList _, CList _ => True
  | CDict d, CDict d' => map fst d = map fst d'
  | _, _ => False
  end.

(** A Score of the weighted module without its weight. *)
Definition to_v1 {T} (s : ScorW.Scor T) : ScorV1.Scor T :=
  ScorV1.mkScor (ScorW.min s) (ScorW.max s) (ScorW.toValue s) (ScorW.forItem s) (ScorW.forValue s).

Definition result_map {A B} (f : A -> B) (r : result A) : result B :=
  match r with Ok a => Ok (f a) | Err e => Err e end.

(** ** Sample inputs *)

Definition half : float := 0x1p-1.
(** The least positive binary64 number. *)
Definition tiny : float := 0x1p-1074.
(** [2^1023]: finite, but the sum of two of them overflows to [Infinity]. *)
Definition big : float := 0x1p1023.

(** An extractor that always yields [x]. *)
Definition const_value (x : float) : unit -> result jsval := fun _ => Ok (JNum x).

(** [{ min: 0, max: 1, toValue: () => x }]. *)
Definition unit_range (x : float) : ScorV1.OptionsArg unit :=
  ScorV1.mkOptions (Some zero) (Some one) (Some (const_value x)).

(** [{ min: 0, max: 1, toValue: () => x, weight }]. *)
Definition unit_range_w (x : float) (w : option float) : ScorW.OptionsArg unit :=
  ScorW.mkOptions (Some zero) (Some one) (Some (const_value x)) w.

(** [{ min: 1, toValue: () => 0 }]: no [max]. *)
Definition no_max_w : ScorW.OptionsArg unit :=
  ScorW.mkOptions (Some one) None (Some (const_value zero)) None.

(** ** Definitions used by the further properties *)

(** The values [toNumericSum] adds: the finite ones, in order. *)
Fixpoint numeric_values (ws : list (option float)) : list float :=
  match ws with
  | [] => []
  | Some x :: r => if isNumeric_f x then x :: numeric_values r else numeric_values r
  | None :: r => numeric_values r
  end.

(** A Score passing the check of [createToMean] in [src/scor.ts]: it has a
    [toValue], a numeric [min] and a numeric [max]. *)
Definition score_ready {T} (s : ScorV1.Scor T) : bool :=
  match ScorV1.toValue s with None => false | Some _ => true end
  && isNumeric_o (ScorV1.min s) && isNumeric_o (ScorV1.max s).

(** ** [src/scor.ts], lines 469-567: the earlier [scor]

    This snapshot throws plain [Error]s, checks the bounds with [isNaN] only
    (so [Infinity] and [-Infinity] are accepted) and tests the value with
    [isNaN] in [forValue]. *)
Module ScorOld.

(** What the snapshot's functions throw: [new Error(message)], or the
    exception of the caller's [toValue], passed on unchanged. *)
Inductive exn :=
| Error (msg : string)
| Rethrown (e : js_error).

Inductive outcome (A : Type) :=
| Ret (a : A)
| Throw (e : exn).
Arguments Ret {A} a.
Arguments Throw {A} e.

Definition INVALID_RANGE : string := "invalid range".

Record OptionsArg (T : Type) := mkOptions {
  o_min : option float;
  o_max : option float;
  o_toValue : option (T -> result jsval)
}.
Arguments mkOptions {T} o_min o_max o_toValue.
Arguments o_min {T} o.
Arguments o_max {T} o.
Arguments o_toValue {T} o.

Record Scor (T : Type) := mkScor {
  min : option float;
  max : option float;
  toValue : option (T -> result jsval);
  forItem : T -> outcome float;
  forValue : jsval -> outcome float
}.
Arguments mkScor {T} min max toValue forItem forValue.
Arguments min {T} s.
Arguments max {T} s.
Arguments toValue {T} s.
Arguments forItem {T} s _.
Arguments forValue {T} s _.

Definition forValueNotAllowed {A} (_ : A) : outcome float := Throw (Error INVALID_RANGE).

(** The global [isNaN]: [ToNumber] of the argument, then a [NaN] test. *)
Definition isNaN (v : jsval) : bool := is_nan (to_number v).

(** [forValue] for [min !== max]:
    [if (value <= min || isNaN(value)) return 0;
     if (value >= max) return 1;
     return (value - min) / maxFromZero;] *)
Definition forValue_in (mn mx : float) (value : jsval) : outcome float :=
  let maxFromZero := (mx - mn)%float in
  if (to_number value <=? mn)%float || isNaN value then Ret zero
  else if (mx <=? to_number value)%float then Ret one
  else Ret ((to_number value - mn) / maxFromZero)%float.

(** [toValue ? (item) => forValue(toValue(item)) : () => { throw new Error("missing toValue") }]. *)
Definition forItem_in {T} (mn mx : float) (toValue : option (T -> result jsval))
  : T -> outcome float :=
  match toValue with
  | Some tv => fun item => match tv item with
                           | Ok v => forValue_in mn mx v
                           | Err e => Throw (Rethrown e)
                           end
  | None => fun _ => Throw (Error "missing toValue")
  end.

(** [scor]. *)
Definition scor {T} (o : OptionsArg T) : outcome (Scor T) :=
  let min := o_min o in
  let max := o_max o in
  let toValue := o_toValue o in
  if match min with Some m => is_nan m | None => false end then Throw (Error INVALID_RANGE)
  else if match max with Some m => is_nan m | None => false end then Throw (Error INVALID_RANGE)
  else
    match min, max with
    | Some mn, Some mx =>
        if (mx <? mn)%float then Throw (Error INVALID_RANGE)
        else if (mn =? mx)%float then
          Ret (mkScor min max toValue (fun _ => Ret zero) (fun _ => Ret zero))
        else
          Ret (mkScor min max toValue (forItem_in mn mx toValue) (forValue_in mn mx))
    | _, _ => Ret (mkScor min max toValue forValueNotAllowed forValueNotAllowed)
    end.

End ScorOld.

(** Two Scores of [src/unnamed/part_001] that [createToMean] cannot tell
    apart: it reads only [toValue], [min] and [forItem]. *)
Definition same_for_mean {T} (s s' : ScorW.Scor T) : Prop :=
  ScorW.toValue s' = ScorW.toValue s /\ ScorW.min s' = ScorW.min s /\
  ScorW.forItem s' = ScorW.forItem s.

Lemma lexZ_eq a b : lexZ a b = Eq -> a = b.
Proof.
  revert b; induction a as [|x a IH]; intros [|y b]; simpl; try discriminate; auto.
  destruct (Z.compare_spec x y); try discriminate.
  intros H'; subst; f_equal; auto.
Qed.

Lemma lexZ_refl a : lexZ a a = Eq.
Proof. induction a; simpl; auto. rewrite Z.compare_refl; auto. Qed.

Lemma lexZ_antisym a b : lexZ b a = CompOpp (lexZ a b).
Proof.
  revert b; induction a as [|x a IH]; intros [|y b]; simpl; auto.
  rewrite (Z.compare_antisym x y).
  destruct (Z.compare x y); simpl; auto.
Qed.

Lemma lexZ_trans a b c : lexZ a b = Lt -> lexZ b c = Lt -> lexZ a c = Lt.
Proof.
  revert b c; induction a as [|x a IH]; intros [|y b] [|z c]; simpl; auto; try discriminate.
  destruct (Z.compare_spec x y), (Z.compare_spec y z); subst; try discriminate;
    intros H1 H2.
  - rewrite Z.compare_refl. eauto.
  - rewrite (proj2 (Z.compare_lt_iff _ _) H0). reflexivity.
  - rewrite (proj2 (Z.compare_lt_iff _ _) H). reflexivity.
  - rewrite (proj2 (Z.compare_lt_iff x z)) by lia. reflexivity.
Qed.

Lemma lexZ_app a b c d :
  List.length a = List.length b ->
  lexZ (a ++ c) (b ++ d) = match lexZ a b with Eq => lexZ c d | r => r end.
Proof.
  revert b; induction a as [|x a IH]; intros [|y b]; simpl; try discriminate; auto.
  intros Hl. destruct (Z.compare x y); auto.
Qed.

Lemma SFcompare_key3 x y :
  x <> S754_nan -> y <> S754_nan ->
  SFcompare x y = Some (lexZ (key3 x) (key3 y)).
Proof.
  intros Hx Hy.
  destruct x as [[]|[]| |[] m e]; try congruence;
  destruct y as [[]|[]| |[] m' e']; try congruence; simpl; try reflexivity.
  - rewrite !Z.compare_opp.
    change (Pos.compare_cont Eq m m') with (Pos.compare m m').
    change (Z.compare (Z.pos m') (Z.pos m)) with (Pos.compare m' m).
    rewrite (Pos.compare_antisym m' m).
    destruct (Z.compare_spec e e') as [->|Hl|Hl].
    + rewrite Z.compare_refl. destruct (m' ?= m)%positive; reflexivity.
    + rewrite (proj2 (Z.compare_gt_iff e' e)) by lia. reflexivity.
    + rewrite (proj2 (Z.compare_lt_iff e' e)) by lia. reflexivity.
  - change (PosDef.Pos.compare_cont Eq m m') with (Pos.compare m m').
    destruct (e ?= e')%Z; try reflexivity. destruct (m ?= m')%positive; reflexivity.
Qed.

Lemma lexZ_key3_zero x y : lexZ (key3 x) (key3 y) = Eq -> x <> S754_nan -> y <> S754_nan ->
  x = y \/ (exists s s', x = S754_zero s /\ y = S754_zero s').
Proof.
  intros H Hx Hy. apply lexZ_eq in H.
  destruct x as [[]|[]| |[] m e]; try congruence;
  destruct y as [[]|[]| |[] m' e']; try congruence; simpl in H;
    try discriminate; eauto;
    injection H; intros; left; f_equal; try lia.
  all: assert (Z.pos m = Z.pos m') as Hm by lia; injection Hm; auto.
Qed.

Lemma key4_inj x y : x <> S754_nan -> y <> S754_nan -> key4 x = key4 y -> x = y.
Proof.
  intros Hx Hy H. unfold key4 in H.
  destruct x as [[]|[]| |[] m e]; try congruence;
  destruct y as [[]|[]| |[] m' e']; try congruence; simpl in H;
    try discriminate; auto;
    injection H; intros; f_equal; try lia.
  all: assert (Z.pos m = Z.pos m') as Hm by lia; injection Hm; auto.
Qed.

Lemma Prim2SF_not_nan x : is_nan x = false -> Prim2SF x <> S754_nan.
Proof.
  intros H. unfold Prim2SF. rewrite H.
  destruct (is_zero x); [discriminate|].
  destruct (is_infinity x); [discriminate|].
  destruct (FloatOps.Z.frexp x) as [r exp].
  destruct (shr_fexp _ _ _ _ _) as [shr e'].
  destruct (shr_m shr); discriminate.
Qed.

Lemma ltb_lexZ x y : is_nan x = false -> is_nan y = false ->
  (x <? y)%float = match lexZ (key3 (Prim2SF x)) (key3 (Prim2SF y)) with Lt => true | _ => false end.
Proof.
  intros Hx Hy. rewrite ltb_spec. unfold SFltb.
  rewrite SFcompare_key3 by (apply Prim2SF_not_nan; auto).
  destruct (lexZ _ _); reflexivity.
Qed.

Lemma eqb_lexZ x y : is_nan x = false -> is_nan y = false ->
  (x =? y)%float = match lexZ (key3 (Prim2SF x)) (key3 (Prim2SF y)) with Eq => true | _ => false end.
Proof.
  intros Hx Hy. rewrite eqb_spec. unfold SFeqb.
  rewrite SFcompare_key3 by (apply Prim2SF_not_nan; auto).
  destruct (lexZ _ _); reflexivity.
Qed.

Lemma is_neg_zero_spec x : is_neg_zero x = true <-> Prim2SF x = S754_zero true.
Proof.
  unfold is_neg_zero. rewrite Leibniz.eqb_spec. split.
  - intros ->. vm_compute. reflexivity.
  - intros H. apply Prim2SF_inj. rewrite H. vm_compute. reflexivity.
Qed.

Lemma is_pos_zero_spec x : is_pos_zero x = true <-> Prim2SF x = S754_zero false.
Proof.
  unfold is_pos_zero. rewrite Leibniz.eqb_spec. split.
  - intros ->. vm_compute. reflexivity.
  - intros H. apply Prim2SF_inj. rewrite H. vm_compute. reflexivity.
Qed.

Lemma is_neg_zero_P x :
  is_neg_zero x = match Prim2SF x with S754_zero true => true | _ => false end.
Proof.
  destruct (is_neg_zero x) eqn:E.
  - apply is_neg_zero_spec in E. rewrite E. reflexivity.
  - destruct (Prim2SF x) as [[]|[]| |[] m e] eqn:E2; auto.
    apply is_neg_zero_spec in E2. congruence.
Qed.

Lemma is_pos_zero_P x :
  is_pos_zero x = match Prim2SF x with S754_zero false => true | _ => false end.
Proof.
  destruct (is_pos_zero x) eqn:E.
  - apply is_pos_zero_spec in E. rewrite E. reflexivity.
  - destruct (Prim2SF x) as [[]|[]| |[] m e] eqn:E2; auto.
    apply is_pos_zero_spec in E2. congruence.
Qed.

Lemma key3_length x : List.length (key3 x) = 3%nat.
Proof. destruct x as [[]|[]| |[] m e]; reflexivity. Qed.

(** The extremum of a list under a total order, as [Math.min] computes it. *)
Section Extremum.
Variable A : Type.
Variable cmp : A -> A -> comparison.
Variable P : A -> Prop.
Hypothesis cmp_antisym : forall a b, cmp b a = CompOpp (cmp a b).
Hypothesis cmp_eq : forall a b, P a -> P b -> cmp a b = Eq -> a = b.
Hypothesis cmp_trans : forall a b c, cmp a b = Lt -> cmp b c = Lt -> cmp a c = Lt.

Local Abbreviation pick := (pick cmp).

Lemma cmp_refl a : cmp a a = Eq.
Proof. pose proof (cmp_antisym a a). destruct (cmp a a); simpl in *; congruence. Qed.

Lemma cmp_not_lt_trans a b c : cmp a b <> Lt -> cmp b c <> Lt -> P a -> P b -> cmp a c <> Lt.
Proof.
  intros H1 H2 Pa Pb H3.
  destruct (cmp b a) eqn:E.
  - apply cmp_eq in E; auto. subst. auto.
  - apply H2. eapply cmp_trans; eauto.
  - rewrite cmp_antisym, E in H1. simpl in H1. congruence.
Qed.

Lemma pick_P a b : P a -> P b -> P (pick a b).
Proof. unfold pick. destruct (cmp b a); auto. Qed.

Lemma pick_comm a b : P a -> P b -> pick a b = pick b a.
Proof.
  intros Pa Pb. unfold pick. rewrite (cmp_antisym a b).
  destruct (cmp a b) eqn:E; simpl; auto.
Qed.

Lemma pick_same a : pick a a = a.
Proof. unfold pick. rewrite cmp_refl. reflexivity. Qed.

Lemma pick_lt a b c : cmp b a = Lt -> cmp (pick b c) a = Lt.
Proof.
  intros H. unfold pick. destruct (cmp c b) eqn:E; auto. eapply cmp_trans; eauto.
Qed.

Lemma pick_assoc a b c : P a -> P b -> P c -> pick (pick a b) c = pick a (pick b c).
Proof.
  intros Pa Pb Pc.
  destruct (cmp b a) eqn:Eba.
  - apply cmp_eq in Eba; auto. subst b. rewrite pick_same.
    unfold pick. destruct (cmp c a) eqn:E; rewrite ?cmp_refl, ?E; reflexivity.
  - assert (pick a b = b) as -> by (unfold pick; rewrite Eba; auto).
    unfold pick at 2. rewrite (pick_lt a b c Eba). reflexivity.
  - assert (pick a b = a) as -> by (unfold pick; rewrite Eba; auto).
    unfold pick at 3. destruct (cmp c b) eqn:Ecb; auto.
    + apply cmp_eq in Ecb; auto. subst c. unfold pick. rewrite Eba. reflexivity.
    + unfold pick. rewrite Eba.
      destruct (cmp c a) eqn:Eca; auto.
      exfalso. rewrite cmp_antisym in Eba.
      assert (cmp a b = Lt) as Hab by (destruct (cmp a b); simpl in *; congruence).
      pose proof (cmp_trans _ _ _ Eca Hab). congruence.
Qed.

Lemma fold_pick_P l a : Forall P l -> P a -> P (fold_left pick l a).
Proof.
  revert a; induction l as [|x l IH]; intros a Hl Pa; simpl; auto.
  inversion Hl; subst. apply IH; auto. apply pick_P; auto.
Qed.

Lemma fold_pick_swap l a b : Forall P l -> P a -> P b ->
  fold_left pick l (pick a b) = pick (fold_left pick l a) b.
Proof.
  revert a; induction l as [|x l IH]; intros a Hl Pa Pb; simpl; auto.
  inversion Hl; subst.
  rewrite pick_assoc, (pick_comm b x), <- pick_assoc; auto.
  apply IH; auto. apply pick_P; auto.
Qed.

Lemma fold_pick_perm l l' a : Permutation l l' -> Forall P l -> P a ->
  fold_left pick l a = fold_left pick l' a.
Proof.
  intros Hp. revert a. induction Hp; intros a Hl Pa; simpl; auto.
  - inversion Hl; subst. apply IHHp; auto. apply pick_P; auto.
  - inversion Hl as [|? ? Py Hl']; inversion Hl'; subst.
    rewrite pick_assoc, (pick_comm y x), <- pick_assoc; auto.
  - rewrite IHHp1; auto. apply IHHp2; auto.
    eapply Permutation_Forall; eauto.
Qed.

Lemma fold_pick_in l a : fold_left pick l a = a \/ In (fold_left pick l a) l.
Proof.
  revert a; induction l as [|x l IH]; intros a; simpl; auto.
  destruct (IH (pick a x)) as [H|H].
  - rewrite H. unfold pick. destruct (cmp x a); auto.
  - right; right; exact H.
Qed.

Lemma fold_pick_least l a : Forall P l -> P a ->
  forall y, In y (a :: l) -> cmp y (fold_left pick l a) <> Lt.
Proof.
  revert a; induction l as [|x l IH]; intros a Hl Pa y Hy; simpl.
  - destruct Hy as [<-|[]]. rewrite cmp_refl. discriminate.
  - inversion Hl; subst.
    assert (Hpa : cmp a (pick a x) <> Lt /\ cmp x (pick a x) <> Lt).
    { unfold pick. destruct (cmp x a) eqn:E.
      - rewrite cmp_refl, E. split; discriminate.
      - rewrite cmp_antisym, E, cmp_refl. split; discriminate.
      - rewrite cmp_refl, E. split; discriminate. }
    destruct Hy as [<-|[<-|Hy]].
    + apply cmp_not_lt_trans with (pick a x); auto; [tauto| |apply pick_P; auto].
      apply IH; simpl; auto. apply pick_P; auto.
    + apply cmp_not_lt_trans with (pick a x); auto; [tauto| |apply pick_P; auto].
      apply IH; simpl; auto. apply pick_P; auto.
    + apply IH; simpl; auto. apply pick_P; auto.
Qed.

End Extremum.


Lemma jcmp_antisym a b : jcmp b a = CompOpp (jcmp a b).
Proof. apply lexZ_antisym. Qed.

Lemma jcmp_eq a b : not_nan a -> not_nan b -> jcmp a b = Eq -> a = b.
Proof.
  intros Ha Hb H. apply lexZ_eq, key4_inj in H; try (apply Prim2SF_not_nan; auto).
  apply Prim2SF_inj; auto.
Qed.

Lemma jcmp_trans a b c : jcmp a b = Lt -> jcmp b c = Lt -> jcmp a c = Lt.
Proof. apply lexZ_trans. Qed.


Lemma jcmp_rev_antisym a b : jcmp_rev b a = CompOpp (jcmp_rev a b).
Proof. apply lexZ_antisym. Qed.

Lemma jcmp_rev_eq a b : not_nan a -> not_nan b -> jcmp_rev a b = Eq -> a = b.
Proof. intros Ha Hb H. symmetry. apply jcmp_eq; auto. Qed.

Lemma jcmp_rev_trans a b c : jcmp_rev a b = Lt -> jcmp_rev b c = Lt -> jcmp_rev a c = Lt.
Proof. unfold jcmp_rev. intros H1 H2. eapply lexZ_trans; eauto. Qed.

Lemma jcmp_split a b :
  jcmp a b = match lexZ (key3 (Prim2SF a)) (key3 (Prim2SF b)) with
             | Eq => lexZ [zsign (Prim2SF a)] [zsign (Prim2SF b)]
             | r => r
             end.
Proof. unfold jcmp, key4. apply lexZ_app. rewrite !key3_length. reflexivity. Qed.

Lemma min_step n l : not_nan n -> not_nan l ->
  (let lowest1 := if is_neg_zero n && is_pos_zero l then n else l in
   if (n <? lowest1)%float then n else lowest1) = pick jcmp l n.
Proof.
  intros Hn Hl. unfold pick. cbv zeta. rewrite jcmp_split.
  destruct (is_neg_zero n && is_pos_zero l) eqn:Hb.
  - apply andb_true_iff in Hb as [H1 H2].
    apply is_neg_zero_spec in H1. apply is_pos_zero_spec in H2.
    rewrite ltb_lexZ, lexZ_refl, H1, H2 by auto. reflexivity.
  - rewrite ltb_lexZ by auto.
    destruct (lexZ (key3 (Prim2SF n)) (key3 (Prim2SF l))) eqn:E; auto.
    destruct (lexZ_key3_zero _ _ E) as [Heq|[s [s' [H1 H2]]]];
      try (apply Prim2SF_not_nan; auto).
    + rewrite Heq, lexZ_refl. reflexivity.
    + rewrite is_neg_zero_P, is_pos_zero_P, H1, H2 in Hb. rewrite H1, H2.
      destruct s, s'; simpl in *; congruence.
Qed.

Lemma max_step n h : not_nan n -> not_nan h ->
  (let highest1 := if is_pos_zero n && is_neg_zero h then n else h in
   if (highest1 <? n)%float then n else highest1) = pick jcmp_rev h n.
Proof.
  intros Hn Hh. unfold pick, jcmp_rev. cbv zeta. rewrite jcmp_split.
  destruct (is_pos_zero n && is_neg_zero h) eqn:Hb.
  - apply andb_true_iff in Hb as [H1 H2].
    apply is_pos_zero_spec in H1. apply is_neg_zero_spec in H2.
    rewrite ltb_lexZ, lexZ_refl, H1, H2 by auto. reflexivity.
  - rewrite ltb_lexZ by auto.
    destruct (lexZ (key3 (Prim2SF h)) (key3 (Prim2SF n))) eqn:E; auto.
    destruct (lexZ_key3_zero _ _ E) as [Heq|[s [s' [H1 H2]]]];
      try (apply Prim2SF_not_nan; auto).
    + rewrite Heq, lexZ_refl. reflexivity.
    + rewrite is_neg_zero_P, is_pos_zero_P, H1, H2 in Hb. rewrite H1, H2.
      destruct s, s'; simpl in *; congruence.
Qed.

Lemma math_min_from_fold l xs : Forall not_nan xs -> not_nan l ->
  math_min_from l xs = fold_left (pick jcmp) xs l.
Proof.
  revert l; induction xs as [|x xs IH]; intros l Hxs Hl; simpl; auto.
  inversion Hxs; subst. rewrite H1. rewrite min_step by auto.
  apply IH; auto. apply pick_P; auto.
Qed.

Lemma math_max_from_fold h xs : Forall not_nan xs -> not_nan h ->
  math_max_from h xs = fold_left (pick jcmp_rev) xs h.
Proof.
  revert h; induction xs as [|x xs IH]; intros h Hxs Hh; simpl; auto.
  inversion Hxs; subst. rewrite H1. rewrite max_step by auto.
  apply IH; auto. apply pick_P; auto.
Qed.

Lemma Prim2SF_infinity : Prim2SF infinity = S754_infinity false.
Proof. vm_compute. reflexivity. Qed.

Lemma Prim2SF_neg_infinity : Prim2SF neg_infinity = S754_infinity true.
Proof. vm_compute. reflexivity. Qed.

Lemma Prim2SF_nan x : is_nan x = true -> Prim2SF x = S754_nan.
Proof. intros H. unfold Prim2SF. rewrite H. reflexivity. Qed.

(** A numeric number is a zero or a finite number. *)
Lemma numeric_shape x : isNumeric_f x = true ->
  (exists s, Prim2SF x = S754_zero s) \/ (exists s m e, Prim2SF x = S754_finite s m e).
Proof.
  unfold isNumeric_f. rewrite !ltb_spec, Prim2SF_infinity, Prim2SF_neg_infinity.
  destruct (Prim2SF x) as [[]|[]| |[] m e]; simpl; try discriminate; eauto 6.
Qed.

Lemma numeric_not_nan x : isNumeric_f x = true -> not_nan x.
Proof.
  intros H. unfold not_nan. destruct (is_nan x) eqn:E; auto.
  apply Prim2SF_nan in E. destruct (numeric_shape x H) as [[s Hs]|[s [m [e Hs]]]]; congruence.
Qed.

Lemma jcmp_numeric_infinity v : isNumeric_f v = true -> jcmp v infinity = Lt.
Proof.
  intros H. rewrite jcmp_split, Prim2SF_infinity.
  destruct (numeric_shape v H) as [[s Hs]|[s [m [e Hs]]]]; rewrite Hs; destruct s; reflexivity.
Qed.

Lemma jcmp_neg_infinity_numeric v : isNumeric_f v = true -> jcmp neg_infinity v = Lt.
Proof.
  intros H. rewrite jcmp_split, Prim2SF_neg_infinity.
  destruct (numeric_shape v H) as [[s Hs]|[s [m [e Hs]]]]; rewrite Hs; destruct s; reflexivity.
Qed.

Lemma not_nan_infinity : not_nan infinity.
Proof. reflexivity. Qed.

Lemma not_nan_neg_infinity : not_nan neg_infinity.
Proof. reflexivity. Qed.

(** IEEE [<] implies [jcmp]-[Lt]. *)
Lemma ltb_jcmp x y : not_nan x -> not_nan y -> (x <? y)%float = true -> jcmp x y = Lt.
Proof.
  intros Hx Hy H. rewrite ltb_lexZ in H by auto. rewrite jcmp_split.
  destruct (lexZ _ _); congruence.
Qed.

Lemma filter_numeric_numeric vs : Forall (fun x => isNumeric_f x = true) (filter_numeric vs).
Proof.
  induction vs as [|[x| |] vs IH]; simpl; auto.
  destruct (isNumeric_f x) eqn:E; auto.
Qed.

Lemma filter_numeric_in v vs : In v (filter_numeric vs) <-> In (JNum v) vs /\ isNumeric_f v = true.
Proof.
  induction vs as [|[x| |] vs IH]; simpl.
  - tauto.
  - destruct (isNumeric_f x) eqn:E; simpl; rewrite IH; split.
    + intros [<-|[]]; auto.
    + intros [[H|H] Hn]; [left; congruence|right; auto].
    + intros []; auto.
    + intros [[H|H] Hn]; [congruence|auto].
  - rewrite IH. split; [intros []; auto|intros [[H|H] ?]; [discriminate|auto]].
  - rewrite IH. split; [intros []; auto|intros [[H|H] ?]; [discriminate|auto]].
Qed.

Lemma filter_numeric_perm vs vs' : Permutation vs vs' ->
  Permutation (filter_numeric vs) (filter_numeric vs').
Proof.
  induction 1 as [|[x| |] l l' _ IH|[x| |] [y| |] l|]; simpl; auto;
    try (destruct (isNumeric_f x); auto);
    try (destruct (isNumeric_f y); auto);
    try constructor; eauto using Permutation_trans.
Qed.

Lemma map_js_ok {A B} (f : A -> B) l : map_js (fun x => Ok (f x)) l = Ok (map f l).
Proof. induction l as [|x l IH]; simpl; auto. rewrite IH. reflexivity. Qed.

Lemma numeric_forall_not_nan xs :
  Forall (fun x => isNumeric_f x = true) xs -> Forall not_nan xs.
Proof. intros H. eapply Forall_impl; [|exact H]. apply numeric_not_nan. Qed.

Lemma math_min_spec xs : xs <> [] -> Forall (fun x => isNumeric_f x = true) xs ->
  In (math_min xs) xs /\ forall v, In v xs -> jcmp v (math_min xs) <> Lt.
Proof.
  intros Hne Hn. pose proof (numeric_forall_not_nan _ Hn) as Hnn.
  unfold math_min. rewrite math_min_from_fold by (auto using not_nan_infinity).
  pose proof (fold_pick_least float jcmp not_nan jcmp_antisym jcmp_eq jcmp_trans
                xs infinity Hnn not_nan_infinity) as Hle.
  split.
  - destruct (fold_pick_in float jcmp xs infinity) as [Heq|Hin]; auto.
    exfalso. destruct xs as [|v xs]; [congruence|].
    apply (Hle v); [simpl; auto|]. rewrite Heq.
    apply jcmp_numeric_infinity. inversion Hn; auto.
  - intros v Hv. apply Hle. simpl; auto.
Qed.

Lemma math_max_spec xs : xs <> [] -> Forall (fun x => isNumeric_f x = true) xs ->
  In (math_max xs) xs /\ forall v, In v xs -> jcmp (math_max xs) v <> Lt.
Proof.
  intros Hne Hn. pose proof (numeric_forall_not_nan _ Hn) as Hnn.
  unfold math_max. rewrite math_max_from_fold by (auto using not_nan_neg_infinity).
  pose proof (fold_pick_least float jcmp_rev not_nan jcmp_rev_antisym jcmp_rev_eq
                jcmp_rev_trans xs neg_infinity Hnn not_nan_neg_infinity) as Hle.
  split.
  - destruct (fold_pick_in float jcmp_rev xs neg_infinity) as [Heq|Hin]; auto.
    exfalso. destruct xs as [|v xs]; [congruence|].
    apply (Hle v); [simpl; auto|]. rewrite Heq. unfold jcmp_rev.
    apply jcmp_neg_infinity_numeric. inversion Hn; auto.
  - intros v Hv. apply (Hle v). simpl; auto.
Qed.

Lemma math_min_perm xs xs' : Permutation xs xs' ->
  Forall (fun x => isNumeric_f x = true) xs -> math_min xs = math_min xs'.
Proof.
  intros Hp Hn. pose proof (numeric_forall_not_nan _ Hn) as Hnn.
  unfold math_min. rewrite !math_min_from_fold; auto using not_nan_infinity.
  - apply (fold_pick_perm float jcmp not_nan jcmp_antisym jcmp_eq jcmp_trans); auto.
    apply not_nan_infinity.
  - eapply Permutation_Forall; eauto.
Qed.

Lemma math_max_perm xs xs' : Permutation xs xs' ->
  Forall (fun x => isNumeric_f x = true) xs -> math_max xs = math_max xs'.
Proof.
  intros Hp Hn. pose proof (numeric_forall_not_nan _ Hn) as Hnn.
  unfold math_max. rewrite !math_max_from_fold; auto using not_nan_neg_infinity.
  - apply (fold_pick_perm float jcmp_rev not_nan jcmp_rev_antisym jcmp_rev_eq jcmp_rev_trans);
      auto.
    apply not_nan_neg_infinity.
  - eapply Permutation_Forall; eauto.
Qed.

(** ** Range inference *)

(** ** Facts about the primitive comparisons *)

Lemma ltb_not_eqb x y : (x <? y)%float = true -> (x =? y)%float = false.
Proof.
  rewrite ltb_spec, eqb_spec. unfold SFltb, SFeqb.
  destruct (SFcompare _ _) as [[]|]; congruence.
Qed.

Lemma ltb_nan_l x y : is_nan x = true -> (x <? y)%float = false.
Proof. intros H. rewrite ltb_spec, (Prim2SF_nan x H). reflexivity. Qed.

Lemma ltb_nan_r x y : is_nan y = true -> (x <? y)%float = false.
Proof.
  intros H. rewrite ltb_spec, (Prim2SF_nan y H).
  unfold SFltb. destruct (Prim2SF x) as [[]|[]| |[] m e]; reflexivity.
Qed.

Lemma eqb_nan_l x y : is_nan x = true -> (x =? y)%float = false.
Proof. intros H. rewrite eqb_spec, (Prim2SF_nan x H). reflexivity. Qed.

Lemma eqb_nan_r x y : is_nan y = true -> (x =? y)%float = false.
Proof.
  intros H. rewrite eqb_spec, (Prim2SF_nan y H).
  unfold SFeqb. destruct (Prim2SF x) as [[]|[]| |[] m e]; reflexivity.
Qed.

Lemma ltb_asym x y : (x <? y)%float = true -> (y <? x)%float = false.
Proof.
  intros H.
  destruct (is_nan x) eqn:Ex; [rewrite ltb_nan_l in H; congruence|].
  destruct (is_nan y) eqn:Ey; [rewrite ltb_nan_r in H; congruence|].
  rewrite ltb_lexZ in * by auto. rewrite lexZ_antisym.
  destruct (lexZ _ _); simpl; congruence.
Qed.

Lemma eqb_not_ltb x y : (x =? y)%float = true -> (y <? x)%float = false.
Proof.
  intros H.
  destruct (is_nan x) eqn:Ex; [rewrite eqb_nan_l in H; congruence|].
  destruct (is_nan y) eqn:Ey; [rewrite eqb_nan_r in H; congruence|].
  rewrite eqb_lexZ in H by auto. rewrite ltb_lexZ by auto. rewrite lexZ_antisym.
  destruct (lexZ _ _); simpl; congruence.
Qed.

Lemma eqb_comm x y : (x =? y)%float = (y =? x)%float.
Proof.
  destruct (is_nan x) eqn:Ex; [rewrite eqb_nan_l, eqb_nan_r by auto; reflexivity|].
  destruct (is_nan y) eqn:Ey; [rewrite eqb_nan_r, eqb_nan_l by auto; reflexivity|].
  rewrite (eqb_lexZ x y Ex Ey), (eqb_lexZ y x Ey Ex), (lexZ_antisym (key3 (Prim2SF x))).
  destruct (lexZ _ _); reflexivity.
Qed.

(** ** What the constructor stores *)

Lemma ScorW_scor_fields {T} (o : ScorW.OptionsArg T) s : ScorW.scor o = Ok s ->
  ScorW.min s = ScorW.o_min o /\ ScorW.max s = ScorW.o_max o /\
  ScorW.toValue s = ScorW.o_toValue o /\ ScorW.weight s = ScorW.o_weight o.
Proof.
  destruct o as [mn mx tv w]. unfold ScorW.scor. cbn.
  destruct (match mn with Some m => _ | None => false end); [discriminate|].
  destruct (match mx with Some m => _ | None => false end); [discriminate|].
  destruct (match w with Some _ => _ | None => false end); [discriminate|].
  destruct mn as [a|], mx as [b|]; try (intros H; injection H as <-; auto).
  destruct (b <? a)%float; [discriminate|].
  destruct (a =? b)%float; intros H; injection H as <-; auto.
Qed.

Lemma ScorV1_scor_fields {T} (o : ScorV1.OptionsArg T) s : ScorV1.scor o = Ok s ->
  ScorV1.min s = ScorV1.o_min o /\ ScorV1.max s = ScorV1.o_max o /\
  ScorV1.toValue s = ScorV1.o_toValue o.
Proof.
  destruct o as [mn mx tv]. unfold ScorV1.scor. cbn.
  destruct (match mn with Some m => _ | None => false end); [discriminate|].
  destruct (match mx with Some m => _ | None => false end); [discriminate|].
  destruct mn as [a|], mx as [b|]; try (intros H; injection H as <-; auto).
  destruct (b <? a)%float; [discriminate|].
  destruct (a =? b)%float; intros H; injection H as <-; auto.
Qed.

Lemma ScorW_scor_err {T} (o : ScorW.OptionsArg T) e : ScorW.scor o = Err e -> is_range_error e = true.
Proof.
  destruct o as [mn mx tv w]. unfold ScorW.scor. cbn.
  destruct (match mn with Some m => _ | None => false end); [intros H; injection H as <-; auto|].
  destruct (match mx with Some m => _ | None => false end); [intros H; injection H as <-; auto|].
  destruct (match w with Some _ => _ | None => false end); [intros H; injection H as <-; auto|].
  destruct mn as [a|], mx as [b|]; try discriminate.
  destruct (b <? a)%float; [intros H; injection H as <-; auto|].
  destruct (a =? b)%float; discriminate.
Qed.

(** ** Reducers, [map] with exceptions, and list relations *)

Lemma reduce_sum_map {A} (g : A -> result float) l acc :
  reduce_js (fun sum x => let* v := g x in Ok (sum + v)%float) l acc =
  let* vs := map_js g l in Ok (fold_left (fun a b => (a + b)%float) vs acc).
Proof.
  revert acc. induction l as [|x r IH]; intros acc; cbn; [reflexivity|].
  destruct (g x) as [v|e]; cbn; [|reflexivity].
  rewrite IH. destruct (map_js g r); reflexivity.
Qed.

Lemma reduce_idx_sum_map {A} (g : A -> result float) l i acc :
  reduce_idx (fun sum x j => let* v := g x in Ok (sum + v)%float) l i acc =
  let* vs := map_js g l in Ok (fold_left (fun a b => (a + b)%float) vs acc).
Proof.
  revert i acc. induction l as [|x r IH]; intros i acc; cbn; [reflexivity|].
  destruct (g x) as [v|e]; cbn; [|reflexivity].
  rewrite IH. destruct (map_js g r); reflexivity.
Qed.

Lemma skipn_nth_cons (ws : list float) i : (i < List.length ws)%nat ->
  skipn i ws = nth i ws zero :: skipn (S i) ws.
Proof.
  revert i. induction ws as [|w ws IH]; intros i H; cbn in H; [lia|].
  destruct i; [reflexivity|]. cbn. apply IH. lia.
Qed.

Lemma reduce_idx_weighted {A} (g : A -> result float) (ws : list float) l i acc :
  (i + List.length l <= List.length ws)%nat ->
  reduce_idx (fun sum x j => let* v := g x in Ok (sum + v * nth j ws zero)%float) l i acc =
  let* vs := map_js g l in
  Ok (fold_left (fun a b => (a + b)%float) (products vs (skipn i ws)) acc).
Proof.
  revert i acc. induction l as [|x r IH]; intros i acc Hl; cbn; [reflexivity|].
  cbn in Hl.
  destruct (g x) as [v|e]; cbn; [|reflexivity].
  rewrite IH by lia. destruct (map_js g r) as [vs|]; cbn; [|reflexivity].
  rewrite (skipn_nth_cons ws i) by lia. reflexivity.
Qed.

Lemma map_js_lookup {S} (d : list (string * S)) (wd : list (string * float)) ws :
  map_js (fun key => match lookup_key key wd with
                     | Some w => Ok w
                     | None => Err (TypeError "Expected same keys scores and weights, but missing key '${key}'.")
                     end) (map fst d) = Ok ws ->
  Forall2 (fun key w => lookup_key key wd = Some w) (map fst d) ws.
Proof.
  revert ws. induction d as [|[k s] d IH]; intros ws H; cbn in *.
  - injection H as <-. constructor.
  - destruct (lookup_key k wd) as [w|] eqn:E; cbn in H; [|discriminate].
    destruct (map_js _ (map fst d)) as [ws'|] eqn:E2; cbn in H; [|discriminate].
    injection H as <-. constructor; auto.
Qed.

Lemma map_js_forall2 {A B} (g : A -> result B) l l' :
  map_js g l = Ok l' -> Forall2 (fun x y => g x = Ok y) l l'.
Proof.
  revert l'. induction l as [|x l IH]; intros l' H; cbn in H.
  - injection H as <-. constructor.
  - destruct (g x) as [y|] eqn:E; cbn in H; [|discriminate].
    destruct (map_js g l) as [ys|]; cbn in H; [|discriminate].
    injection H as <-. constructor; auto.
Qed.

Lemma map_js_err {A B} (g : A -> result B) l e :
  map_js g l = Err e -> exists x, In x l /\ g x = Err e.
Proof.
  induction l as [|x l IH]; cbn; intros H; [discriminate|].
  destruct (g x) as [y|e'] eqn:E; cbn in H.
  - destruct (map_js g l) as [ys|e'']; cbn in H; [discriminate|].
    injection H as ->. destruct IH as [z [Hz1 Hz2]]; eauto.
  - injection H as ->. eauto.
Qed.

Lemma filter_all {A} (f : A -> bool) l : forallb f l = true -> filter f l = l.
Proof.
  induction l as [|x l IH]; cbn; auto.
  intros H. apply andb_true_iff in H as [H1 H2]. rewrite H1, IH; auto.
Qed.

Lemma Forall2_dict {A B} (R : (string * A) -> (string * B) -> Prop) (R' : A -> B -> Prop) d d' :
  Forall2 R d d' -> (forall x y, R x y -> fst y = fst x /\ R' (snd x) (snd y)) ->
  map fst d = map fst d' /\ Forall2 R' (map snd d) (map snd d').
Proof.
  intros H HR. induction H as [|x y d d' Hxy _ [IH1 IH2]]; cbn; [auto|].
  destruct (HR x y Hxy) as [H1 H2]. rewrite H1, IH1. auto.
Qed.

Lemma Forall2_impl_in {A B} (R R' : A -> B -> Prop) (P : A -> Prop) l l' :
  Forall P l -> Forall2 R l l' -> (forall x y, P x -> R x y -> R' x y) -> Forall2 R' l l'.
Proof.
  intros HP H HR. induction H as [|x y l l' Hxy _ IH]; constructor.
  - inversion HP; subst; auto.
  - inversion HP; subst; auto.
Qed.

Lemma Forall2_refl_in {A} (R : A -> A -> Prop) (P : A -> Prop) l :
  Forall P l -> (forall x, In x l -> P x -> R x x) -> Forall2 R l l.
Proof.
  intros HP HR. induction HP as [|x l Hx HP IH]; constructor.
  - apply HR; [left; reflexivity|exact Hx].
  - apply IH. intros y Hy. apply HR. right. exact Hy.
Qed.

(** ** Weights *)

Lemma valid_weight_numeric x : valid_weight x = true -> isNumeric_f x = true.
Proof. unfold valid_weight. destruct (isNumeric_f x); auto. Qed.

Lemma reduce_toNumericSum_numeric ws acc d :
  Forall (fun w => isNumeric_f w = true) ws ->
  reduce_js toNumericSum (map Some ws) acc = Ok d -> d = fold_left (fun a b => (a + b)%float) ws acc.
Proof.
  revert acc. induction ws as [|w ws IH]; intros acc Hn H; cbn in *.
  - injection H as <-. reflexivity.
  - inversion Hn as [|? ? Hw Hr]; subst. unfold toNumericSum in H at 1.
    destruct (isNumeric_f acc); cbn in H; [|discriminate].
    rewrite Hw in H. cbn in H. apply IH; auto.
Qed.

Lemma sumAndCount_numeric ws acc r :
  reduce_js ScorV1.sumAndCountWeights (map Some ws) acc = Ok r ->
  Forall (fun w => isNumeric_f w = true) ws.
Proof.
  revert acc. induction ws as [|w ws IH]; intros acc H; cbn in *; [constructor|].
  destruct acc as [s n]. unfold ScorV1.sumAndCountWeights in H at 1.
  destruct (isNumeric_f w) eqn:E; cbn in H.
  - destruct (w <? zero)%float; cbn in H; [discriminate|]. eauto.
  - discriminate.
Qed.

Lemma assertWeights_numeric ws : ScorV1.assertWeights (map Some ws) = Ok true ->
  Forall (fun w => isNumeric_f w = true) ws.
Proof.
  unfold ScorV1.assertWeights. destruct (Nat.eqb _ 0); [discriminate|].
  destruct (reduce_js _ _ _) as [r|] eqn:E; cbn; [|discriminate].
  intros _. eapply sumAndCount_numeric; eauto.
Qed.

Lemma sumAndCount_valid ws s0 n0 :
  Forall (fun w => valid_opt_weight w = true) ws ->
  reduce_js ScorV1.sumAndCountWeights ws (s0, n0) =
  Ok (fold_left (fun a b => (a + b)%float) (defined ws) s0, (n0 + count_undefined ws)%nat).
Proof.
  revert s0 n0. induction ws as [|[x|] ws IH]; intros s0 n0 Hv; cbn.
  - rewrite Nat.add_0_r. reflexivity.
  - inversion Hv as [|? ? Hx Hr]; subst. cbn in Hx. unfold valid_weight in Hx.
    destruct (isNumeric_f x), (x <? zero)%float; cbn in Hx |- *; try discriminate.
    apply IH; auto.
  - inversion Hv as [|? ? Hx Hr]; subst. rewrite IH by auto.
    f_equal. f_equal. lia.
Qed.

Lemma sumAndCount_err ws acc e :
  reduce_js ScorV1.sumAndCountWeights ws acc = Err e -> is_range_error e = true.
Proof.
  revert acc. induction ws as [|w ws IH]; intros [s n] H; cbn in H; [discriminate|].
  unfold ScorV1.sumAndCountWeights in H at 1.
  destruct (match w with Some w => _ | None => false end).
  - cbn in H. injection H as <-. reflexivity.
  - destruct w as [x|]; [destruct (isNumeric_f x)|]; cbn in H; eauto.
Qed.

Lemma sumAndCount_invalid ws acc x :
  In (Some x) ws -> valid_weight x = false ->
  exists msg, reduce_js ScorV1.sumAndCountWeights ws acc = Err (RangeError msg).
Proof.
  revert acc. induction ws as [|w ws IH]; intros [s n] Hin Hx; [destruct Hin|].
  cbn [reduce_js]. destruct Hin as [->|Hin].
  - unfold ScorV1.sumAndCountWeights. unfold valid_weight in Hx.
    replace (negb (isNumeric_f x) || (x <? zero)%float) with true
      by (destruct (isNumeric_f x), (x <? zero)%float; cbn in *; congruence).
    cbn. eauto.
  - destruct (ScorV1.sumAndCountWeights (s, n) w) as [acc'|e] eqn:E; cbn [bind].
    + apply IH; auto.
    + pose proof (sumAndCount_err (w :: ws) (s, n) e) as He. cbn [reduce_js] in He.
      rewrite E in He. cbn [bind] in He. specialize (He eq_refl).
      destruct e; try discriminate. eauto.
Qed.

Lemma toNumericSum_valid ws acc d :
  Forall (fun w => valid_opt_weight w = true) ws ->
  reduce_js toNumericSum ws acc = Ok d ->
  d = fold_left (fun a b => (a + b)%float) (defined ws) acc.
Proof.
  revert acc. induction ws as [|[x|] ws IH]; intros acc Hv H; cbn in H |- *.
  - injection H as <-. reflexivity.
  - inversion Hv as [|? ? Hx Hr]; subst. cbn in Hx. apply valid_weight_numeric in Hx.
    unfold toNumericSum in H at 1. destruct (isNumeric_f acc); cbn in H; [|discriminate].
    rewrite Hx in H. cbn in H. apply IH; auto.
  - inversion Hv as [|? ? Hx Hr]; subst.
    unfold toNumericSum in H at 1. destruct (isNumeric_f acc); cbn in H; [|discriminate].
    apply IH; auto.
Qed.

Lemma toNumericSum_err ws acc e : reduce_js toNumericSum ws acc = Err e -> is_range_error e = true.
Proof.
  revert acc. induction ws as [|w ws IH]; intros acc H; cbn in H; [discriminate|].
  unfold toNumericSum in H at 1.
  destruct (isNumeric_f acc); cbn in H; [|injection H as <-; reflexivity].
  destruct (isNumeric_o w); [destruct w|]; cbn in H; eauto.
Qed.

Lemma count_filter_valid ws :
  Forall (fun w => valid_opt_weight w = true) ws ->
  (count_undefined ws + List.length (filter isNumeric_o ws))%nat = List.length ws.
Proof.
  induction ws as [|[x|] ws IH]; intros Hv; cbn; auto.
  - inversion Hv as [|? ? Hx Hr]; subst. cbn in Hx. apply valid_weight_numeric in Hx.
    rewrite Hx. cbn. rewrite <- IH by auto. lia.
  - inversion Hv; subst. rewrite <- IH by auto. lia.
Qed.

Lemma count_undefined_zero ws : count_undefined ws = 0%nat -> ~ In None ws.
Proof.
  induction ws as [|[x|] ws IH]; cbn; intros H Hin; [exact Hin| |discriminate].
  destruct Hin as [Hin|Hin]; [discriminate|exact (IH H Hin)].
Qed.

Lemma ScorV1_distribute_valid (c : coll (option float)) :
  values c <> [] -> Forall (fun w => valid_opt_weight w = true) (values c) ->
  let sum := fsum (defined (values c)) in
  let k := count_undefined (values c) in
  ScorV1.distributeWeights c =
  let* allDefined := (if Nat.eqb k 0 then
                        if (sum =? zero)%float then
                          Err (RangeError (INVALID_RANGE ++
                            ": expected sum to be > 0 when all weights are defined."))
                        else Ok true
                      else Ok false) in
  if allDefined then Ok c
  else
    let remaining := (one - sum)%float in
    let per := if (zero <? remaining)%float
               then (remaining / float_of_nat k)%float else zero in
    Ok match c with
       | CList l => CList (map (fun w => if isNumeric_o w then w else Some per) l)
       | CDict d => CDict (map (fun ks => (fst ks,
                      if isNumeric_o (snd ks) then snd ks else Some per)) d)
       end.
Proof.
  intros Hne Hv sum k.
  assert (Hlen : Nat.eqb (List.length (values c)) 0 = false)
    by (destruct (values c); [congruence|reflexivity]).
  unfold ScorV1.distributeWeights, ScorV1.assertWeights.
  rewrite Hlen, (sumAndCount_valid _ zero 0 Hv). reflexivity.
Qed.

Lemma ScorW_distribute_all_weighted {T} (c : coll (ScorW.Scor T)) :
  forallb (fun s => isNumeric_o (ScorW.weight s)) (values c) = true ->
  ScorW.distributeWeights c = Ok c.
Proof.
  intros H. unfold ScorW.distributeWeights. cbv zeta.
  assert (Hf : forallb isNumeric_o (map ScorW.weight (values c)) = true).
  { rewrite forallb_forall in *. intros w Hw. apply in_map_iff in Hw as [s [<- Hs]]. auto. }
  rewrite (filter_all _ _ Hf), Nat.sub_diag. reflexivity.
Qed.

Lemma ScorW_distribute_err {T} (c : coll (ScorW.Scor T)) e :
  ScorW.distributeWeights c = Err e -> is_range_error e = true.
Proof.
  unfold ScorW.distributeWeights.
  destruct (Nat.eqb _ 0); [discriminate|].
  destruct (reduce_js toNumericSum _ zero) as [sum|e'] eqn:Es; cbn [bind].
  - destruct c as [l|d].
    + destruct (map_js _ l) as [l'|e'] eqn:E; cbn [bind]; [discriminate|].
      intros H; injection H as ->. apply map_js_err in E as [s [_ Hs]].
      destruct (isNumeric_o _); [discriminate|]. eapply ScorW_scor_err; exact Hs.
    + destruct (map_js _ d) as [d'|e'] eqn:E; cbn [bind]; [discriminate|].
      intros H; injection H as ->. apply map_js_err in E as [ks [_ Hs]].
      destruct (isNumeric_o _); cbn in Hs; [discriminate|].
      destruct (ScorW.setWeight _ _) eqn:Ew; cbn in Hs; [discriminate|].
      injection Hs as ->. eapply ScorW_scor_err; exact Ew.
  - intros H; injection H as ->. eapply toNumericSum_err; exact Es.
Qed.

Lemma ScorV1_createToMean_pre {T} (m : ScorV1.MeanInput T) :
  ScorV1.scores_of m = [] \/
  existsb (fun s => match ScorV1.toValue s with None => true | Some _ => false end
                    || negb (isNumeric_o (ScorV1.min s)) || negb (isNumeric_o (ScorV1.max s)))
          (ScorV1.scores_of m) = true ->
  exists msg, ScorV1.createToMean m = Err (TypeError msg).
Proof.
  intros Hpre.
  destruct m as [L [ws|] | d [wd|]]; unfold ScorV1.createToMean;
    cbn [bind ScorV1.scores_of] in Hpre |- *.
  3: { destruct (map_js _ (map fst d)) as [ws|e] eqn:Ew; cbn [bind].
       2: { apply map_js_err in Ew as [key [_ Hk]].
            destruct (lookup_key key wd); [discriminate|]. injection Hk as <-. eauto. }
       destruct Hpre as [He|Hx]; [rewrite He; cbn; eauto|].
       destruct (Nat.eqb _ 0); [eauto|]. rewrite Hx. eauto. }
  all: destruct Hpre as [He|Hx]; [rewrite He; cbn; eauto|].
  all: destruct (Nat.eqb _ 0); [eauto|]; rewrite Hx; eauto.
Qed.

Lemma ScorW_createToMean_pre {T} (c : coll (ScorW.Scor T)) :
  values c = [] \/
  existsb (fun s => match ScorW.toValue s with None => true | Some _ => false end
                    || negb (isNumeric_o (ScorW.min s))) (values c) = true ->
  exists msg, ScorW.createToMean c = Err (TypeError msg).
Proof.
  intros Hpre. unfold ScorW.createToMean.
  destruct Hpre as [He|Hx]; [rewrite He; cbn; eauto|].
  destruct (Nat.eqb _ 0); [eauto|]. rewrite Hx. eauto.
Qed.

(** ** Rounding of binary64 sums and quotients *)

Lemma digits2_pos_size p : digits2_pos p = Pos.size p.
Proof. induction p as [p IH|p IH|]; cbn; try rewrite IH; reflexivity. Qed.

Lemma Zdigits2_nonneg z : (0 <= Zdigits2 z)%Z.
Proof. destruct z; cbn; lia. Qed.

Lemma Zdigits2_lt z : (0 <= z -> z < 2 ^ Zdigits2 z)%Z.
Proof.
  intros Hz. destruct z as [|p|p]; [cbn; lia| |lia].
  cbn [Zdigits2]. rewrite digits2_pos_size.
  pose proof (Pos.size_gt p) as H. apply Pos2Z.pos_lt_pos in H. rewrite Pos2Z.inj_pow in H. exact H.
Qed.

Lemma Zdigits2_ge z : (0 < z -> 2 ^ (Zdigits2 z - 1) <= z)%Z.
Proof.
  intros Hz. destruct z as [|p|p]; [lia| |lia].
  cbn [Zdigits2]. rewrite digits2_pos_size.
  pose proof (Pos.size_le p) as H. apply Pos2Z.pos_le_pos in H. rewrite Pos2Z.inj_pow in H.
  replace (Z.pos p~0) with (2 * Z.pos p)%Z in H by reflexivity.
  replace (Z.pos (Pos.size p)) with (Z.succ (Z.pos (Pos.size p) - 1)) in H by lia.
  rewrite Z.pow_succ_r in H by lia. lia.
Qed.

Lemma Zdigits2_le z k : (0 <= z -> 0 <= k -> z < 2 ^ k -> Zdigits2 z <= k)%Z.
Proof.
  intros Hz Hk Hlt. destruct (Z.eq_dec z 0) as [->|Hnz]; [cbn; lia|].
  pose proof (Zdigits2_ge z ltac:(lia)) as Hg.
  destruct (Z.le_gt_cases (Zdigits2 z) k) as [|Hc]; [assumption|].
  assert (2 ^ k <= 2 ^ (Zdigits2 z - 1))%Z by (apply Z.pow_le_mono_r; lia). lia.
Qed.

Lemma div_pow_lt m d a : (0 <= m < 2 ^ d -> 0 <= a -> 0 <= d -> m / 2 ^ a < 2 ^ Z.max (d - a) 0)%Z.
Proof.
  intros [Hm Hd] Ha Hd0. apply Z.div_lt_upper_bound; [apply Z.pow_pos_nonneg; lia|].
  rewrite <- Z.pow_add_r by lia.
  eapply Z.lt_le_trans; [exact Hd|]. apply Z.pow_le_mono_r; lia.
Qed.

Lemma digits_div_pow m a : (0 <= m -> 0 <= a -> Zdigits2 (m / 2 ^ a) <= Z.max (Zdigits2 m - a) 0)%Z.
Proof.
  intros Hm Ha. apply Zdigits2_le.
  - apply Z.div_pos; [lia|apply Z.pow_pos_nonneg; lia].
  - lia.
  - apply div_pow_lt; [split; [lia|apply Zdigits2_lt; lia]|lia|apply Zdigits2_nonneg].
Qed.

Lemma digits_succ m : (0 <= m -> Zdigits2 (m + 1) <= Zdigits2 m + 1)%Z.
Proof.
  intros Hm. apply Zdigits2_le; [lia|pose proof (Zdigits2_nonneg m); lia|].
  pose proof (Zdigits2_lt m Hm). rewrite Z.pow_add_r by (pose proof (Zdigits2_nonneg m); lia).
  lia.
Qed.

Lemma digits_mono a b : (0 <= a <= b -> Zdigits2 a <= Zdigits2 b)%Z.
Proof.
  intros H. apply Zdigits2_le; [lia|apply Zdigits2_nonneg|].
  pose proof (Zdigits2_lt b ltac:(lia)). lia.
Qed.

Lemma digits_mul_pow m a : (0 <= m -> 0 <= a -> Zdigits2 (m * 2 ^ a) <= Zdigits2 m + a)%Z.
Proof.
  intros Hm Ha. apply Zdigits2_le; [apply Z.mul_nonneg_nonneg; [lia|apply Z.pow_nonneg; lia]
                                   |pose proof (Zdigits2_nonneg m); lia|].
  rewrite Z.pow_add_r by (pose proof (Zdigits2_nonneg m); lia).
  apply Z.mul_lt_mono_pos_r; [apply Z.pow_pos_nonneg; lia|apply Zdigits2_lt; lia].
Qed.

(** ** The rounding of binary64 *)

Lemma shr_1_m r : (0 <= shr_m r)%Z -> shr_m (shr_1 r) = (shr_m r / 2)%Z.
Proof.
  intros H. rewrite <- Z.div2_div.
  destruct r as [[|[p|p|]|p] rr ss]; cbn in *; try reflexivity; lia.
Qed.

Lemma shr_m_iter p r : (0 <= shr_m r)%Z -> shr_m (iter_pos shr_1 p r) = (shr_m r / 2 ^ Zpos p)%Z.
Proof.
  revert r. induction p as [p IH|p IH|]; intros r Hr; cbn [iter_pos].
  - assert (H1 : (0 <= shr_m (shr_1 r))%Z) by (rewrite shr_1_m by lia; apply Z.div_pos; lia).
    assert (H2 : (0 <= shr_m (iter_pos shr_1 p (shr_1 r)))%Z)
      by (rewrite IH by lia; apply Z.div_pos; [lia|apply Z.pow_pos_nonneg; lia]).
    rewrite IH by exact H2. rewrite IH by exact H1. rewrite shr_1_m by lia.
    rewrite !Z.div_div by (try apply Z.mul_pos; try apply Z.pow_pos_nonneg; lia).
    f_equal. rewrite Pos2Z.inj_xI.
    replace (2 * Z.pos p + 1)%Z with (1 + Z.pos p + Z.pos p)%Z by lia.
    rewrite !Z.pow_add_r by lia. ring.
  - assert (H2 : (0 <= shr_m (iter_pos shr_1 p r))%Z)
      by (rewrite IH by lia; apply Z.div_pos; [lia|apply Z.pow_pos_nonneg; lia]).
    rewrite IH by exact H2. rewrite IH by exact Hr.
    rewrite Z.div_div by (pose proof (Z.pow_pos_nonneg 2 (Z.pos p)); lia).
    f_equal. rewrite (Pos2Z.inj_xO p).
    replace (2 * Z.pos p)%Z with (Z.pos p + Z.pos p)%Z by lia.
    rewrite !Z.pow_add_r by lia. ring.
  - rewrite shr_1_m by exact Hr. reflexivity.
Qed.

Lemma shr_record_of_loc_m m l : shr_m (shr_record_of_loc m l) = m.
Proof. destruct l as [|[]]; reflexivity. Qed.

Lemma shr_fexp_spec m e l : (0 <= m)%Z ->
  let '(r, e') := shr_fexp 53 1024 m e l in
  e' = Z.max e (fexp 53 1024 (Zdigits2 m + e)) /\
  shr_m r = (m / 2 ^ (e' - e))%Z.
Proof.
  intros Hm. unfold shr_fexp, shr.
  destruct (fexp 53 1024 (Zdigits2 m + e) - e)%Z as [|p|p] eqn:E.
  - split; [lia|]. rewrite shr_record_of_loc_m, Z.sub_diag, Z.pow_0_r, Z.div_1_r. reflexivity.
  - split; [lia|]. rewrite shr_m_iter by (rewrite shr_record_of_loc_m; exact Hm).
    rewrite shr_record_of_loc_m. f_equal. f_equal. lia.
  - split; [lia|]. rewrite shr_record_of_loc_m, Z.sub_diag, Z.pow_0_r, Z.div_1_r. reflexivity.
Qed.

Lemma rne_bound m l : (0 <= m)%Z -> (m <= round_nearest_even m l <= m + 1)%Z.
Proof. intros H. destruct l as [|[]]; cbn; try lia. destruct (Z.even m); lia. Qed.

(** One rounding step: the exponent and the bound on the value. *)
Lemma shr_fexp_bound m e l : (0 <= m)%Z ->
  let '(r, e') := shr_fexp 53 1024 m e l in
  e' = Z.max e (Z.max (Zdigits2 m + e - 53) (-1074)) /\
  (0 <= shr_m r)%Z /\
  (Zdigits2 (shr_m r) + e' <= Z.max (Zdigits2 m + e) e')%Z.
Proof.
  intros Hm. pose proof (shr_fexp_spec m e l Hm) as H.
  destruct (shr_fexp 53 1024 m e l) as [r e'].
  destruct H as [He Hr]. unfold fexp, emin in He. cbn in He.
  assert (Hd : (0 <= e' - e)%Z) by lia.
  split; [lia|]. rewrite Hr. split; [apply Z.div_pos; [lia|apply Z.pow_pos_nonneg; lia]|].
  pose proof (digits_div_pow m (e' - e) Hm Hd). lia.
Qed.

(** [binary_round_aux] on a non-negative mantissa whose value is below
    [2^(B-1)]: a zero or a finite number below [2^B], of the given sign. *)
Lemma round_aux_bounded sx m e l B : (0 <= m)%Z -> (e <= B - 1)%Z ->
  (Zdigits2 m + e <= B - 1)%Z -> (-1073 <= B <= 972)%Z ->
  binary_round_aux 53 1024 sx m e l = S754_zero sx \/
  exists mm ee, binary_round_aux 53 1024 sx m e l = S754_finite sx mm ee /\
                (Zdigits2 (Zpos mm) + ee <= B)%Z.
Proof.
  intros Hm He Hd HB. unfold binary_round_aux.
  pose proof (shr_fexp_bound m e l Hm) as H1.
  destruct (shr_fexp 53 1024 m e l) as [r1 e1]. destruct H1 as (He1 & Hr1 & Hd1).
  pose proof (rne_bound (shr_m r1) (loc_of_shr_record r1) Hr1) as Hrn.
  set (m2 := round_nearest_even (shr_m r1) (loc_of_shr_record r1)) in *.
  assert (Hd2 : (Zdigits2 m2 <= Zdigits2 (shr_m r1) + 1)%Z).
  { pose proof (digits_succ _ Hr1). pose proof (digits_mono m2 (shr_m r1 + 1) ltac:(lia)). lia. }
  pose proof (shr_fexp_bound m2 e1 loc_Exact ltac:(lia)) as H2.
  destruct (shr_fexp 53 1024 m2 e1 loc_Exact) as [r2 e2]. destruct H2 as (He2 & Hr2 & Hd3).
  pose proof (Zdigits2_nonneg m). pose proof (Zdigits2_nonneg (shr_m r1)).
  pose proof (Zdigits2_nonneg m2). pose proof (Zdigits2_nonneg (shr_m r2)).
  destruct (shr_m r2) as [|mm|mm] eqn:E; [left; reflexivity| |lia].
  right. replace (Z.leb e2 (1024 - 53)) with true by (symmetry; apply Z.leb_le; lia).
  exists mm, e2. split; [reflexivity|]. lia.
Qed.

Lemma round_aux_sign sx m e l : (0 <= m)%Z ->
  (exists s, binary_round_aux 53 1024 sx m e l = S754_zero s /\ s = sx) \/
  (exists mm ee, binary_round_aux 53 1024 sx m e l = S754_finite sx mm ee) \/
  binary_round_aux 53 1024 sx m e l = S754_infinity sx.
Proof.
  intros Hm. unfold binary_round_aux.
  pose proof (shr_fexp_bound m e l Hm) as H1.
  destruct (shr_fexp 53 1024 m e l) as [r1 e1]. destruct H1 as (_ & Hr1 & _).
  pose proof (rne_bound (shr_m r1) (loc_of_shr_record r1) Hr1) as Hrn.
  pose proof (shr_fexp_bound (round_nearest_even (shr_m r1) (loc_of_shr_record r1)) e1 loc_Exact
                ltac:(lia)) as H2.
  destruct (shr_fexp 53 1024 _ e1 loc_Exact) as [r2 e2]. destruct H2 as (_ & Hr2 & _).
  destruct (shr_m r2) as [|mm|mm]; [left; eauto| |lia].
  right. destruct (Z.leb e2 (1024 - 53)); eauto.
Qed.

Lemma iter_xO m d : Zpos (Pos.iter xO m d) = (Zpos m * 2 ^ Zpos d)%Z.
Proof.
  induction d as [|d IH] using Pos.peano_ind; [cbn; lia|].
  rewrite Pos.iter_succ, Pos2Z.inj_succ, Z.pow_succ_r by lia.
  change (Zpos (Pos.iter xO m d)~0) with (2 * Zpos (Pos.iter xO m d))%Z. rewrite IH. ring.
Qed.

Lemma shl_align_spec mx ex ez :
  (Zpos (fst (shl_align mx ex ez)) = Zpos mx * 2 ^ (ex - Z.min ex ez))%Z /\
  snd (shl_align mx ex ez) = Z.min ex ez.
Proof.
  unfold shl_align. destruct (ez - ex)%Z as [|d|d] eqn:E; cbn [fst snd].
  - replace (ex - Z.min ex ez)%Z with 0%Z by lia. split; [ring|lia].
  - replace (ex - Z.min ex ez)%Z with 0%Z by lia. split; [ring|lia].
  - rewrite iter_xO. replace (ex - Z.min ex ez)%Z with (Zpos d) by lia. split; [reflexivity|lia].
Qed.

Lemma binary_round_sign sx p e :
  (exists s, binary_round 53 1024 sx p e = S754_zero s /\ s = sx) \/
  (exists mm ee, binary_round 53 1024 sx p e = S754_finite sx mm ee) \/
  binary_round 53 1024 sx p e = S754_infinity sx.
Proof.
  unfold binary_round. destruct (shl_align _ _ _) as [mz ez]. apply round_aux_sign. lia.
Qed.

(** ** Numbers by their binary64 shape *)

Lemma numeric_of_shape x :
  (exists s, Prim2SF x = S754_zero s) \/ (exists s m e, Prim2SF x = S754_finite s m e) ->
  isNumeric_f x = true.
Proof.
  unfold isNumeric_f. rewrite !ltb_spec, Prim2SF_infinity, Prim2SF_neg_infinity.
  intros [[s E]|(s & m & e & E)]; rewrite E; destruct s; reflexivity.
Qed.

Lemma not_numeric_shape x : isNumeric_f x = false ->
  (exists s, Prim2SF x = S754_infinity s) \/ Prim2SF x = S754_nan.
Proof.
  unfold isNumeric_f. rewrite !ltb_spec, Prim2SF_infinity, Prim2SF_neg_infinity.
  destruct (Prim2SF x) as [[]|[]| |[] m e]; cbn; try discriminate; eauto.
Qed.

Lemma not_numeric_of_shape x :
  (exists s, Prim2SF x = S754_infinity s) \/ Prim2SF x = S754_nan -> isNumeric_f x = false.
Proof.
  unfold isNumeric_f. rewrite !ltb_spec, Prim2SF_infinity, Prim2SF_neg_infinity.
  intros [[s E]|E]; rewrite E; [destruct s|]; reflexivity.
Qed.

Lemma valid_weight_shape w : valid_weight w = true ->
  (exists s, Prim2SF w = S754_zero s) \/ (exists m e, Prim2SF w = S754_finite false m e).
Proof.
  unfold valid_weight. intros H. apply andb_true_iff in H as [Hn Hl].
  destruct (numeric_shape w Hn) as [[s E]|(s & m & e & E)]; eauto.
  rewrite ltb_spec, E in Hl. destruct s; [discriminate|eauto].
Qed.

Lemma shape_valid_weight w :
  (exists s, Prim2SF w = S754_zero s) \/ (exists m e, Prim2SF w = S754_finite false m e) ->
  valid_weight w = true.
Proof.
  intros H. unfold valid_weight. rewrite numeric_of_shape.
  - rewrite ltb_spec. destruct H as [[s E]|(m & e & E)]; rewrite E; reflexivity.
  - destruct H as [[s E]|(m & e & E)]; eauto.
Qed.

(** A sum of non-negative numbers: a zero, a positive finite number or [+Infinity]. *)
Lemma add_nonneg a w :
  ((exists s, Prim2SF a = S754_zero s) \/ (exists m e, Prim2SF a = S754_finite false m e) \/
   Prim2SF a = S754_infinity false) ->
  valid_weight w = true ->
  (exists s, Prim2SF (a + w) = S754_zero s) \/ (exists m e, Prim2SF (a + w) = S754_finite false m e) \/
  Prim2SF (a + w) = S754_infinity false.
Proof.
  intros Ha Hw. apply valid_weight_shape in Hw. rewrite add_spec.
  destruct Ha as [[sa Ea]|[(ma & ea & Ea)|Ea]]; rewrite Ea;
    destruct Hw as [[sw Ew]|(mw & ew & Ew)]; rewrite Ew; cbn [SF64add SFadd]; eauto.
  - destruct sa, sw; eauto.
  - cbn [cond_Zopp Z.add]. unfold binary_normalize.
    change prec with 53%Z. change emax with 1024%Z.
    match goal with |- context [binary_round _ _ false ?p ?e] =>
      destruct (binary_round_sign false p e) as [(s & E & _)|[(mm & ee & E)|E]]; rewrite E; eauto end.
Qed.

Lemma add_not_numeric a w : isNumeric_f a = false -> isNumeric_f w = true -> isNumeric_f (a + w) = false.
Proof.
  intros Ha Hw. apply not_numeric_of_shape. rewrite add_spec.
  destruct (not_numeric_shape a Ha) as [[s E]|E]; rewrite E;
    destruct (numeric_shape w Hw) as [[s' E']|(s' & m & e & E')]; rewrite E'; cbn; eauto.
Qed.

Lemma fold_nonneg ws acc :
  Forall (fun w => valid_opt_weight w = true) ws ->
  ((exists s, Prim2SF acc = S754_zero s) \/ (exists m e, Prim2SF acc = S754_finite false m e) \/
   Prim2SF acc = S754_infinity false) ->
  let t := fold_left (fun a b => (a + b)%float) (defined ws) acc in
  (exists s, Prim2SF t = S754_zero s) \/ (exists m e, Prim2SF t = S754_finite false m e) \/
  Prim2SF t = S754_infinity false.
Proof.
  revert acc. induction ws as [|[x|] ws IH]; intros acc Hv Ha; cbn; auto.
  - inversion Hv as [|? ? Hx Hr]; subst. apply IH; auto. apply add_nonneg; auto.
  - inversion Hv; subst. apply IH; auto.
Qed.

Lemma fold_not_numeric ws acc :
  Forall (fun w => valid_opt_weight w = true) ws -> isNumeric_f acc = false ->
  isNumeric_f (fold_left (fun a b => (a + b)%float) (defined ws) acc) = false.
Proof.
  revert acc. induction ws as [|[x|] ws IH]; intros acc Hv Ha; cbn; auto.
  - inversion Hv as [|? ? Hx Hr]; subst. apply IH; auto.
    apply add_not_numeric; auto. apply valid_weight_numeric. exact Hx.
  - inversion Hv; subst. apply IH; auto.
Qed.

Lemma defined_app l1 l2 : defined (l1 ++ l2)%list = (defined l1 ++ defined l2)%list.
Proof. induction l1 as [|[x|] l1 IH]; cbn; congruence. Qed.

Lemma prefix_numeric ws acc :
  Forall (fun w => valid_opt_weight w = true) ws ->
  isNumeric_f (fold_left (fun a b => (a + b)%float) (defined ws) acc) = true ->
  forall i, isNumeric_f (fold_left (fun a b => (a + b)%float) (defined (firstn i ws)) acc) = true.
Proof.
  intros Hv Ht i.
  destruct (isNumeric_f (fold_left (fun a b => (a + b)%float) (defined (firstn i ws)) acc)) eqn:Ep;
    [reflexivity|].
  rewrite <- (firstn_skipn i ws), defined_app, fold_left_app in Ht.
  rewrite fold_not_numeric in Ht; [discriminate| |exact Ep].
  rewrite <- (firstn_skipn i ws) in Hv. apply Forall_app in Hv. apply Hv.
Qed.

Lemma reduce_toNumericSum_ok ws acc :
  Forall (fun w => valid_opt_weight w = true) ws ->
  (forall i, (i < List.length ws)%nat ->
     isNumeric_f (fold_left (fun a b => (a + b)%float) (defined (firstn i ws)) acc) = true) ->
  reduce_js toNumericSum ws acc = Ok (fold_left (fun a b => (a + b)%float) (defined ws) acc).
Proof.
  revert acc. induction ws as [|w ws IH]; intros acc Hv Hp; [reflexivity|].
  inversion Hv as [|? ? Hx Hr]; subst.
  cbn [reduce_js]. unfold toNumericSum at 1.
  pose proof (Hp 0%nat ltac:(cbn; lia)) as H0. cbn in H0. rewrite H0. cbn [negb].
  destruct w as [x|]; cbn in Hx |- *.
  - rewrite (valid_weight_numeric _ Hx). cbn. apply IH; auto.
    intros i Hi. apply (Hp (S i)). cbn. lia.
  - apply IH; auto. intros i Hi. apply (Hp (S i)). cbn. lia.
Qed.

Lemma reduce_toNumericSum_overflow ws acc i :
  Forall (fun w => valid_opt_weight w = true) ws -> (i < List.length ws)%nat ->
  isNumeric_f (fold_left (fun a b => (a + b)%float) (defined (firstn i ws)) acc) = false ->
  reduce_js toNumericSum ws acc =
  Err (RangeError (INVALID_RANGE ++ ": expected sum to be numeric, but was ${sum}.")%string).
Proof.
  revert acc i. induction ws as [|w ws IH]; intros acc i Hv Hi Hp; [cbn in Hi; lia|].
  inversion Hv as [|? ? Hx Hr]; subst.
  cbn [reduce_js]. unfold toNumericSum at 1.
  destruct (isNumeric_f acc) eqn:Ea; [|reflexivity]. cbn [negb].
  destruct i as [|i]; [cbn in Hp; congruence|].
  cbn in Hi. destruct w as [x|]; cbn in Hx, Hp |- *.
  - rewrite (valid_weight_numeric _ Hx). cbn. apply (IH _ i); auto. lia.
  - apply (IH _ i); auto. lia.
Qed.

Lemma Prim2SF_zero : Prim2SF zero = S754_zero false.
Proof. vm_compute. reflexivity. Qed.

Lemma Prim2SF_one : Prim2SF one = S754_finite false 4503599627370496 (-52).
Proof. vm_compute. reflexivity. Qed.

(** [1 - sum] for a non-negative [sum], when positive, is at most [1]: its
    most significant digit has weight at most [2^1]. *)
Lemma remaining_shape sum :
  ((exists s, Prim2SF sum = S754_zero s) \/ (exists m e, Prim2SF sum = S754_finite false m e) \/
   Prim2SF sum = S754_infinity false) ->
  (zero <? (one - sum))%float = true ->
  exists mr er, Prim2SF (one - sum) = S754_finite false mr er /\ (Zdigits2 (Zpos mr) + er <= 2)%Z.
Proof.
  intros Hs Hlt. rewrite ltb_spec, Prim2SF_zero in Hlt. rewrite sub_spec, Prim2SF_one in *.
  destruct Hs as [[s E]|[(m & e & E)|E]]; rewrite E in *.
  - eexists; eexists; split; [reflexivity|]. cbn. lia.
  - unfold SF64sub in *. cbn [SFsub cond_Zopp] in *. change prec with 53%Z in *. change emax with 1024%Z in *.
    pose proof (shl_align_spec 4503599627370496 (-52) (Z.min (-52) e)) as [Ha _].
    destruct (shl_align 4503599627370496 (-52) (Z.min (-52) e)) as [a ea]. cbn [fst] in *.
    destruct (shl_align m e (Z.min (-52) e)) as [b eb]. cbn [fst] in *.
    replace (Z.min (-52) (Z.min (-52) e)) with (Z.min (-52) e) in Ha by lia.
    assert (Ha' : Zpos a = (2 ^ (- Z.min (-52) e))%Z).
    { rewrite Ha. replace (Zpos 4503599627370496) with (2 ^ 52)%Z by reflexivity.
      rewrite <- Z.pow_add_r by lia. f_equal. lia. }
    clear Ha. set (ez := Z.min (-52) e) in *.
    remember (Zpos a - Zpos b)%Z as d eqn:Ed.
    destruct d as [|p|p]; cbn [binary_normalize] in *.
    + discriminate.
    + unfold binary_round in *.
      pose proof (shl_align_spec p ez (fexp 53 1024 (Zpos (digits2_pos p) + ez))) as [Hm Hez].
      destruct (shl_align p ez _) as [mz ez']. cbn [fst snd] in *.
      assert (Hp : (Zdigits2 (Zpos p) <= - ez)%Z).
      { apply Zdigits2_le; lia. }
      assert (Hd : (Zdigits2 (Zpos mz) <= Zdigits2 (Zpos p) + (ez - ez'))%Z).
      { rewrite Hm, <- Hez. apply digits_mul_pow; lia. }
      destruct (round_aux_bounded false (Zpos mz) ez' loc_Exact 2) as [E2|(mm & ee & E2 & Hb)];
        try lia.
      * rewrite E2 in Hlt. discriminate.
      * rewrite E2. eauto.
    + exfalso. unfold binary_normalize in Hlt.
      destruct (binary_round_sign true p ez) as [(s & E2 & ->)|[(mm & ee & E2)|E2]];
        rewrite E2 in Hlt; discriminate.
  - cbn in Hlt. discriminate.
Qed.

Lemma round_aux_exact m e : Zdigits2 (Zpos m) = 53%Z -> (-1074 <= e <= 971)%Z ->
  binary_round_aux 53 1024 false (Zpos m) e loc_Exact = S754_finite false m e.
Proof.
  intros Hd He.
  assert (Hs : shr_fexp 53 1024 (Zpos m) e loc_Exact =
               ({| shr_m := Zpos m; shr_r := false; shr_s := false |}, e)).
  { unfold shr_fexp. replace (fexp 53 1024 (Zdigits2 (Zpos m) + e) - e)%Z with 0%Z
      by (unfold fexp, emin; rewrite Hd; lia). reflexivity. }
  unfold binary_round_aux. rewrite Hs. cbn [loc_of_shr_record shr_m shr_r shr_s round_nearest_even].
  rewrite Hs. cbn [shr_m]. replace (e <=? 1024 - 53)%Z with true by lia. reflexivity.
Qed.

(** The length [k] of an array, [1 <= k < 2^53], as a number is at least [1]. *)
Lemma float_of_nat_shape k : (1 <= k)%nat -> (Z.of_nat k < 2 ^ 53)%Z ->
  exists mk ek, Prim2SF (float_of_nat k) = S754_finite false mk ek /\
    (1 <= Zdigits2 (Zpos mk) + ek)%Z.
Proof.
  intros Hk Hb. unfold float_of_nat. rewrite of_uint63_spec, Uint63.of_Z_spec.
  rewrite Z.mod_small by (replace Uint63.wB with (2 ^ 63)%Z by reflexivity; lia).
  destruct k as [|k]; [lia|]. cbn [Z.of_nat] in *. set (p := Pos.of_succ_nat k) in *.
  cbn [binary_normalize]. change prec with 53%Z. change emax with 1024%Z.
  unfold binary_round.
  assert (Hdp : (1 <= Zdigits2 (Zpos p) <= 53)%Z).
  { split; [cbn; lia|]. apply Zdigits2_le; lia. }
  change (Zpos (digits2_pos p)) with (Zdigits2 (Zpos p)).
  replace (fexp 53 1024 (Zdigits2 (Zpos p) + 0)) with (Zdigits2 (Zpos p) - 53)%Z
    by (unfold fexp, emin; lia).
  pose proof (shl_align_spec p 0 (Zdigits2 (Zpos p) - 53)) as [Hm Hez].
  destruct (shl_align p 0 _) as [mz ez]. cbn [fst snd] in *.
  replace (Z.min 0 (Zdigits2 (Zpos p) - 53)) with (Zdigits2 (Zpos p) - 53)%Z in * by lia.
  assert (Hd : Zdigits2 (Zpos mz) = 53%Z).
  { apply Z.le_antisymm.
    - rewrite Hm. pose proof (digits_mul_pow (Zpos p) (0 - (Zdigits2 (Zpos p) - 53))). lia.
    - pose proof (Zdigits2_lt (Zpos mz) ltac:(lia)) as Hl.
      pose proof (Zdigits2_ge (Zpos p) ltac:(lia)) as Hg.
      assert (H52 : (2 ^ 52 <= Zpos mz)%Z).
      { rewrite Hm. replace 52%Z with (Zdigits2 (Zpos p) - 1 + (0 - (Zdigits2 (Zpos p) - 53)))%Z
          at 1 by lia. rewrite Z.pow_add_r by lia.
        apply Z.mul_le_mono_nonneg_r; [apply Z.pow_nonneg; lia|exact Hg]. }
      destruct (Z.le_gt_cases 53 (Zdigits2 (Zpos mz))) as [H|H]; [exact H|].
      pose proof (Z.pow_le_mono_r 2 (Zdigits2 (Zpos mz)) 52 ltac:(lia) ltac:(lia)). lia. }
  subst ez. rewrite round_aux_exact by lia. eexists; eexists; split; [reflexivity|]. lia.
Qed.

Lemma SFdiv_core_spec m1 e1 m2 e2 : (0 < m2)%Z ->
  let e' := Z.min (fexp 53 1024 (Zdigits2 m1 + e1 - (Zdigits2 m2 + e2))) (e1 - e2) in
  snd (fst (SFdiv_core_binary 53 1024 m1 e1 m2 e2)) = e' /\
  fst (fst (SFdiv_core_binary 53 1024 m1 e1 m2 e2)) = ((m1 * 2 ^ (e1 - e2 - e')) / m2)%Z.
Proof.
  intros Hm2 e'. unfold SFdiv_core_binary. fold e'.
  assert (Hs : (0 <= e1 - e2 - e')%Z) by lia.
  destruct (e1 - e2 - e')%Z as [|s|s] eqn:Es; [| |lia].
  - rewrite Z.mul_1_r. unfold Z.div. destruct (Z.div_eucl m1 m2). split; reflexivity.
  - rewrite Z.shiftl_mul_pow2 by lia. unfold Z.div.
    destruct (Z.div_eucl (m1 * 2 ^ Zpos s) m2). split; reflexivity.
Qed.

(** A positive number at most [2] divided by a number at least [1] is a
    non-negative number. *)
Lemma div_shape r q mr er mk ek :
  Prim2SF r = S754_finite false mr er -> (Zdigits2 (Zpos mr) + er <= 2)%Z ->
  Prim2SF q = S754_finite false mk ek -> (1 <= Zdigits2 (Zpos mk) + ek)%Z ->
  Prim2SF (r / q) = S754_zero false \/ exists m e, Prim2SF (r / q) = S754_finite false m e.
Proof.
  intros Er Hr Eq Hq. rewrite div_spec, Er, Eq. unfold SF64div. cbn [SFdiv xorb].
  change prec with 53%Z. change emax with 1024%Z.
  pose proof (SFdiv_core_spec (Zpos mr) er (Zpos mk) ek ltac:(lia)) as [He Hqq]. cbv zeta in He, Hqq.
  destruct (SFdiv_core_binary 53 1024 (Zpos mr) er (Zpos mk) ek) as [[qq e'] l]. cbn [fst snd] in *.
  set (d1 := Zdigits2 (Zpos mr)) in *. set (d2 := Zdigits2 (Zpos mk)) in *.
  assert (He' : (e' <= -52)%Z) by (rewrite He; unfold fexp, emin; lia).
  rewrite <- He in Hqq. set (s := (er - ek - e')%Z) in *.
  assert (Hs : (0 <= s)%Z) by (unfold s; lia).
  assert (Hd1 := Zdigits2_lt (Zpos mr) ltac:(lia)). fold d1 in Hd1.
  assert (Hd2 := Zdigits2_ge (Zpos mk) ltac:(lia)). fold d2 in Hd2.
  assert (Hd2p : (1 <= d2)%Z) by (unfold d2; cbn; lia).
  assert (Hd1p : (0 <= d1)%Z) by apply Zdigits2_nonneg.
  assert (Hq0 : (0 <= qq)%Z).
  { rewrite Hqq. apply Z.div_pos; [|lia]. apply Z.mul_nonneg_nonneg; [lia|apply Z.pow_nonneg; lia]. }
  assert (Hqlt : (qq < 2 ^ Z.max (d1 + s - (d2 - 1)) 0)%Z).
  { rewrite Hqq. apply (Z.le_lt_trans _ (Zpos mr * 2 ^ s / 2 ^ (d2 - 1))).
    - apply Z.div_le_compat_l; [apply Z.mul_nonneg_nonneg; [lia|apply Z.pow_nonneg; lia]|].
      split; [apply Z.pow_pos_nonneg; lia|exact Hd2].
    - apply div_pow_lt; [|lia|lia]. split; [apply Z.mul_nonneg_nonneg; [lia|apply Z.pow_nonneg; lia]|].
      rewrite Z.pow_add_r by lia. apply Z.mul_lt_mono_pos_r; [apply Z.pow_pos_nonneg; lia|exact Hd1]. }
  assert (Hdq : (Zdigits2 qq <= Z.max (d1 + s - (d2 - 1)) 0)%Z) by (apply Zdigits2_le; lia).
  destruct (round_aux_bounded false qq e' l 3) as [E|(mm & ee & E & _)]; try lia.
  - rewrite E. auto.
  - rewrite E. eauto.
Qed.

(** The weight [distributeWeights] gives a Score without one. *)
Lemma per_valid sum k :
  ((exists s, Prim2SF sum = S754_zero s) \/ (exists m e, Prim2SF sum = S754_finite false m e) \/
   Prim2SF sum = S754_infinity false) ->
  (1 <= k)%nat -> (Z.of_nat k < 2 ^ 53)%Z ->
  valid_weight (if (zero <? (one - sum))%float
                then ((one - sum) / float_of_nat k)%float else zero) = true.
Proof.
  intros Hs Hk Hb. destruct (zero <? (one - sum))%float eqn:Hlt; [|reflexivity].
  destruct (remaining_shape sum Hs Hlt) as (mr & er & Er & Hr).
  destruct (float_of_nat_shape k Hk Hb) as (mk & ek & Ek & Hq).
  apply shape_valid_weight.
  destruct (div_shape _ _ _ _ _ _ Er Hr Ek Hq) as [E|(m & e & E)]; eauto.
Qed.

(** ** [distributeWeights] over Scores built by [scor] *)

Lemma ScorW_scor_weight {T} (o : ScorW.OptionsArg T) s w :
  ScorW.scor o = Ok s -> ScorW.o_weight o = Some w -> valid_weight w = true.
Proof.
  destruct o as [mn mx tv w']. unfold ScorW.scor. cbn. intros H ->.
  destruct (match mn with Some m => _ | None => false end); [discriminate|].
  destruct (match mx with Some m => _ | None => false end); [discriminate|].
  unfold valid_weight. destruct (isNumeric_f w), (w <? zero)%float; cbn in *; auto; discriminate.
Qed.

Lemma ScorW_setWeight_ok {T} (o : ScorW.OptionsArg T) s w :
  ScorW.scor o = Ok s -> valid_weight w = true -> exists s', ScorW.setWeight s (Some w) = Ok s'.
Proof.
  intros H Hw. pose proof (ScorW_scor_fields _ _ H) as (Hmn & Hmx & Htv & _).
  unfold ScorW.setWeight. rewrite Hmn, Hmx, Htv.
  destruct o as [mn mx tv w0]. unfold ScorW.scor in H |- *. cbn in H |- *.
  destruct (match mn with Some m => _ | None => false end); [discriminate|].
  destruct (match mx with Some m => _ | None => false end); [discriminate|].
  replace (negb (isNumeric_f w) || (w <? zero)%float) with false
    by (unfold valid_weight in Hw; destruct (isNumeric_f w), (w <? zero)%float; cbn in *; congruence).
  destruct (match w0 with Some _ => _ | None => false end); [discriminate|].
  destruct mn as [a|], mx as [b|]; eauto.
  destruct (b <? a)%float; [discriminate|]. destruct (a =? b)%float; eauto.
Qed.

Lemma map_js_all_ok {A B} (f : A -> result B) l :
  (forall x, In x l -> exists y, f x = Ok y) -> exists l', map_js f l = Ok l'.
Proof.
  induction l as [|x l IH]; intros H; cbn; [eauto|].
  destruct (H x (or_introl eq_refl)) as [y ->]. cbn [bind].
  destruct IH as [l' ->]; [intros z Hz; apply H; right; exact Hz|]. cbn. eauto.
Qed.

Lemma count_undefined_le ws : (count_undefined ws <= List.length ws)%nat.
Proof. induction ws as [|[x|] ws IH]; cbn; lia. Qed.

Lemma ScorW_built_valid {T} (l : list (ScorW.Scor T)) :
  Forall (fun s => exists o, ScorW.scor o = Ok s) l ->
  Forall (fun w => valid_opt_weight w = true) (map ScorW.weight l).
Proof.
  intros H. apply Forall_map. eapply Forall_impl; [|exact H]. intros s [o Ho].
  pose proof (ScorW_scor_fields _ _ Ho) as (_ & _ & _ & Hw).
  destruct (ScorW.weight s) as [w|] eqn:Ew; [|reflexivity]. cbn.
  exact (ScorW_scor_weight o s w Ho (eq_sym Hw)).
Qed.

Lemma ScorW_withoutWeight {T} (c : coll (ScorW.Scor T)) :
  Forall (fun s => valid_opt_weight (ScorW.weight s) = true) (values c) ->
  (List.length (map ScorW.weight (values c)) -
   List.length (filter isNumeric_o (map ScorW.weight (values c))))%nat =
  count_undefined (map ScorW.weight (values c)).
Proof.
  intros Hv. pose proof (count_filter_valid (map ScorW.weight (values c))) as H.
  rewrite Forall_map in H. specialize (H Hv). lia.
Qed.

(** [distributeWeights] over Scores built by [scor] returns when no running
    sum of the defined weights is non-finite before an addition. *)
Lemma ScorW_distribute_ok {T} (c : coll (ScorW.Scor T)) :
  Forall (fun s => exists o, ScorW.scor o = Ok s) (values c) ->
  (Z.of_nat (List.length (values c)) < 2 ^ 53)%Z ->
  (forall i, (i < List.length (values c))%nat ->
     isNumeric_f (fsum (defined (firstn i (map ScorW.weight (values c))))) = true) ->
  exists c', ScorW.distributeWeights c = Ok c'.
Proof.
  intros Hb Hlen Hp.
  pose proof (ScorW_built_valid _ Hb) as Hvw.
  assert (Hv : Forall (fun s => valid_opt_weight (ScorW.weight s) = true) (values c))
    by (rewrite Forall_map in Hvw; exact Hvw).
  unfold ScorW.distributeWeights. cbv zeta. rewrite (ScorW_withoutWeight c Hv).
  set (ws := map ScorW.weight (values c)) in *.
  destruct (Nat.eqb (count_undefined ws) 0) eqn:E0; [eauto|].
  apply Nat.eqb_neq in E0.
  rewrite (reduce_toNumericSum_ok ws zero Hvw).
  2: { intros i Hi. apply Hp. unfold ws in Hi. rewrite length_map in Hi. exact Hi. }
  cbn [bind].
  assert (Hper : valid_weight
      (if (zero <? (one - fold_left (fun a b => (a + b)%float) (defined ws) zero))%float
       then ((one - fold_left (fun a b => (a + b)%float) (defined ws) zero) /
             float_of_nat (count_undefined ws))%float
       else zero) = true).
  { apply per_valid.
    - apply fold_nonneg; [exact Hvw|]. left. exists false. apply Prim2SF_zero.
    - lia.
    - pose proof (count_undefined_le ws).
      assert (List.length ws = List.length (values c)) by apply length_map. lia. }
  set (per := if (zero <? (one - fold_left (fun a b => (a + b)%float) (defined ws) zero))%float
       then ((one - fold_left (fun a b => (a + b)%float) (defined ws) zero) /
             float_of_nat (count_undefined ws))%float
       else zero) in Hper |- *.
  assert (Hel : forall s, In s (values c) -> exists s',
            (if isNumeric_o (ScorW.weight s) then Ok s else ScorW.setWeight s (Some per)) = Ok s').
  { intros s Hs. destruct (isNumeric_o (ScorW.weight s)); [eauto|].
    eapply Forall_forall in Hb as [o Ho]; [|exact Hs].
    exact (ScorW_setWeight_ok o s per Ho Hper). }
  destruct c as [l|d]; cbn [values] in *.
  - destruct (map_js_all_ok _ l Hel) as [l' ->]. cbn. eauto.
  - destruct (map_js_all_ok (fun ks => let* s' := (if isNumeric_o (ScorW.weight (snd ks)) then Ok (snd ks)
                                               else ScorW.setWeight (snd ks) (Some per)) in
                                  Ok (fst ks, s')) d) as [d' ->].
    + intros [k s] Hin. cbv beta. cbn [fst snd]. destruct (Hel s) as [s' ->].
      * apply in_map_iff. exists (k, s). auto.
      * cbn. eauto.
    + cbn. eauto.
Qed.

(** When a running sum of the defined weights is not finite before an
    addition, [toNumericSum] throws and so does [distributeWeights]. *)
Lemma ScorW_distribute_overflow {T} (c : coll (ScorW.Scor T)) i :
  Forall (fun s => valid_opt_weight (ScorW.weight s) = true) (values c) ->
  (0 < count_undefined (map ScorW.weight (values c)))%nat ->
  (i < List.length (values c))%nat ->
  isNumeric_f (fsum (defined (firstn i (map ScorW.weight (values c))))) = false ->
  ScorW.distributeWeights c =
  Err (RangeError (INVALID_RANGE ++ ": expected sum to be numeric, but was ${sum}.")%string).
Proof.
  intros Hv Hk Hi Hn.
  assert (Hvw : Forall (fun w => valid_opt_weight w = true) (map ScorW.weight (values c)))
    by (rewrite Forall_map; exact Hv).
  unfold ScorW.distributeWeights. cbv zeta. rewrite (ScorW_withoutWeight c Hv).
  destruct (Nat.eqb (count_undefined (map ScorW.weight (values c))) 0) eqn:E0;
    [apply Nat.eqb_eq in E0; lia|].
  rewrite (reduce_toNumericSum_overflow _ zero i Hvw); [|rewrite length_map; exact Hi|exact Hn].
  destruct c; reflexivity.
Qed.

(** ** The claims *)

(** C1: for a Score built from finite [min] and [max]: when [min == max],
    [forValue] and [forItem] return [0] for every input, whatever [toValue]
    is (it is never called); when [min < max], [forValue(value)] is [0] when
    [value] is not a finite number or [value <= min], else [1] when
    [value >= max], else [(value - min) / (max - min)] in binary64
    arithmetic. *)
Theorem scor_forValue_spec {T} (mn mx : float) (tv : option (T -> result jsval)) :
  isNumeric_f mn = true -> isNumeric_f mx = true ->
  ((mn =? mx)%float = true ->
   exists s, ScorV1.scor (ScorV1.mkOptions (Some mn) (Some mx) tv) = Ok s /\
             (forall v, ScorV1.forValue s v = Ok zero) /\
             (forall item, ScorV1.forItem s item = Ok zero)) /\
  ((mn <? mx)%float = true ->
   exists s, ScorV1.scor (ScorV1.mkOptions (Some mn) (Some mx) tv) = Ok s /\
             forall v, ScorV1.forValue s v =
                       Ok (if negb (isNumeric v) || (to_number v <=? mn)%float then zero
                           else if (mx <=? to_number v)%float then one
                           else ((to_number v - mn) / (mx - mn))%float)).
Proof.
  intros Hmn Hmx. unfold ScorV1.scor. cbn [ScorV1.o_min ScorV1.o_max ScorV1.o_toValue].
  rewrite Hmn, Hmx. cbn [negb]. split.
  - intros Heq. rewrite (eqb_not_ltb _ _ Heq), Heq.
    eexists; split; [reflexivity|]. cbn. unfold getZero. auto.
  - intros Hlt. rewrite (ltb_asym _ _ Hlt), (ltb_not_eqb _ _ Hlt).
    eexists; split; [reflexivity|]. intros v. cbn. unfold forValue_in.
    destruct (isNumeric v), (to_number v <=? mn)%float, (mx <=? to_number v)%float; reflexivity.
Qed.

Lemma scor_forValue_spec_witness :
  isNumeric_f zero = true /\ isNumeric_f one = true /\
  exists s, ScorV1.scor (ScorV1.mkOptions (Some zero) (Some one) (@None (unit -> result jsval))) = Ok s /\
            forall v, ScorV1.forValue s v =
                      Ok (if negb (isNumeric v) || (to_number v <=? zero)%float then zero
                          else if (one <=? to_number v)%float then one
                          else ((to_number v - zero) / (one - zero))%float).
Proof.
  split; [reflexivity|split; [reflexivity|]].
  apply (proj2 (scor_forValue_spec (T:=unit) zero one None eq_refl eq_refl)).
  reflexivity.
Defined.

(** C2: when [createToMean] returns a function: for exactly one Score it is
    that Score's [forItem]; for two Scores or more, it maps an item to the
    weighted mean [sum(forItem_i(item) * w_i) / sum(w_i)] when weights are
    given (the weights taken in the order of the Scores, by key for a
    record), and to [sum(forItem_i(item)) / count] otherwise, the sums added
    left to right; an exception of a [forItem] propagates.  The same holds for
    the unweighted [createToMean] of the Scores with a [weight] field. *)
Theorem createToMean_means {T} :
  (forall (m : ScorV1.MeanInput T) f, ScorV1.createToMean m = Ok f ->
     (forall s, ScorV1.scores_of m = [s] -> f = ScorV1.forItem s) /\
     ((2 <= List.length (ScorV1.scores_of m))%nat ->
        (ScorV1.has_weights m = false ->
           forall item, f item =
             let* vs := map_js (fun s => ScorV1.forItem s item) (ScorV1.scores_of m) in
             Ok (fsum vs / float_of_nat (List.length (ScorV1.scores_of m)))%float) /\
        (ScorV1.has_weights m = true ->
           exists ws, ScorV1.weights_in_order m ws /\
             forall item, f item =
               let* vs := map_js (fun s => ScorV1.forItem s item) (ScorV1.scores_of m) in
               Ok (weighted_mean vs ws)))) /\
  (forall (c : coll (ScorW.Scor T)) f, ScorW.createToMean c = Ok f ->
     (forall s, values c = [s] -> f = ScorW.forItem s) /\
     ((2 <= List.length (values c))%nat ->
        forall item, f item =
          let* vs := map_js (fun s => ScorW.forItem s item) (values c) in
          Ok (fsum vs / float_of_nat (List.length (values c)))%float)).
Proof.
  split.
  - intros m f H.
    destruct m as [L [ws|] | d [wd|]]; unfold ScorV1.createToMean in H;
      cbn [bind ScorV1.scores_of ScorV1.has_weights ScorV1.weights_in_order] in H |- *.
    3: destruct (map_js _ (map fst d)) as [ws|] eqn:Ew; cbn [bind] in H; [|discriminate].
    3, 4: remember (map snd d) as L eqn:HL.
    all: destruct (Nat.eqb _ 0) eqn:E0; [discriminate|].
    all: destruct (existsb _ _); [discriminate|].
    1, 3: destruct (negb (Nat.eqb (List.length ws) _)) eqn:El; cbn [bind] in H; [discriminate|];
          destruct (ScorV1.assertWeights _) as [[]|] eqn:Ea; cbn [bind] in H; try discriminate.
    all: cbn [bind] in H.
    all: destruct L as [|s1 [|s2 rest]]; [discriminate| |].
    all: try (injection H as <-; split; [intros s Hs; injection Hs as ->; reflexivity|cbn; lia]).
    all: split; [discriminate|intros _].
    1, 2: destruct (reduce_js toNumericSum (map Some ws) zero) as [dv|] eqn:Ed; cbn [bind] in H;
          [|discriminate];
          apply reduce_toNumericSum_numeric in Ed; [|apply assertWeights_numeric; exact Ea];
          apply negb_false_iff, Nat.eqb_eq in El.
    all: injection H as <-.
    + split; [discriminate|intros _].
      exists ws. split; [reflexivity|]. intros item.
      pose proof (reduce_idx_weighted (fun s => ScorV1.forItem s item) ws (s1 :: s2 :: rest) 0 zero)
        as R.
      specialize (R ltac:(cbn in *; lia)). cbn [reduce_idx bind skipn] in R. rewrite R.
      destruct (map_js (fun s => ScorV1.forItem s item) _); cbn [bind]; [|reflexivity]. subst dv. reflexivity.
    + split; [discriminate|intros _].
      exists ws. split; [apply map_js_lookup; exact Ew|]. intros item.
      pose proof (reduce_idx_weighted (fun s => ScorV1.forItem s item) ws (s1 :: s2 :: rest) 0 zero)
        as R.
      specialize (R ltac:(cbn in *; lia)). cbn [reduce_idx bind skipn] in R. rewrite R.
      destruct (map_js (fun s => ScorV1.forItem s item) _); cbn [bind]; [|reflexivity]. subst dv. reflexivity.
    + split; [|discriminate]. intros _ item.
      pose proof (reduce_idx_sum_map (fun s => ScorV1.forItem s item) (s1 :: s2 :: rest) 0 zero) as R.
      cbn [reduce_idx bind] in R. rewrite R. destruct (map_js (fun s => ScorV1.forItem s item) _); reflexivity.
    + split; [|discriminate]. intros _ item.
      pose proof (reduce_idx_sum_map (fun s => ScorV1.forItem s item) (s1 :: s2 :: rest) 0 zero) as R.
      cbn [reduce_idx bind] in R. rewrite R. destruct (map_js (fun s => ScorV1.forItem s item) _); reflexivity.
  - intros c f H. unfold ScorW.createToMean in H.
    destruct (Nat.eqb _ 0) eqn:E0; [discriminate|].
    destruct (existsb _ _); [discriminate|].
    destruct (values c) as [|s1 [|s2 rest]]; [discriminate| |].
    + injection H as <-. split; [intros s Hs; injection Hs as ->; reflexivity|cbn; lia].
    + injection H as <-. split; [discriminate|intros _ item].
      pose proof (reduce_sum_map (fun s => ScorW.forItem s item) (s1 :: s2 :: rest) zero) as R.
      cbn [reduce_js bind] in R. rewrite R.
      destruct (map_js (fun s => ScorW.forItem s item) _); reflexivity.
Qed.

(** Two Scores with the value [0.5] and no weights. *)
Lemma createToMean_means_witness :
  exists s f, ScorV1.scor (unit_range half) = Ok s /\
    ScorV1.createToMean (ScorV1.MList [s; s] None) = Ok f /\
    f tt = let* vs := map_js (fun s => ScorV1.forItem s tt) [s; s] in
           Ok (fsum vs / float_of_nat 2)%float.
Proof.
  destruct (ScorV1.scor (unit_range half)) as [s|e] eqn:Es; [|vm_compute in Es; discriminate].
  destruct (ScorV1.createToMean (ScorV1.MList [s; s] None)) as [f|e] eqn:Ef.
  2: { vm_compute in Es. injection Es as <-. vm_compute in Ef. discriminate. }
  exists s, f. split; [reflexivity|]. split; [exact Ef|].
  destruct (proj1 (@createToMean_means unit) _ _ Ef) as [_ H2].
  exact (proj1 (H2 (le_n 2)) eq_refl tt).
Defined.

(** A single Score with the weight [2^-1074]: the function is the Score's
    [forItem], which yields [0.5], while the weighted mean of the formula
    rounds [0.5 * 2^-1074] to [0]. *)
Lemma createToMean_single_weight_cex :
  exists s f, ScorV1.scor (unit_range half) = Ok s /\
    ScorV1.createToMean (ScorV1.MList [s] (Some [tiny])) = Ok f /\
    ScorV1.forItem s tt = Ok half /\ valid_weight tiny = true /\
    f tt = Ok half /\ weighted_mean [half] [tiny] = zero /\ half <> zero.
Proof.
  eexists; eexists.
  split; [reflexivity|]. split; [reflexivity|]. split; [reflexivity|].
  split; [reflexivity|]. split; [reflexivity|]. split; [vm_compute; reflexivity|].
  discriminate.
Qed.

(** C3: for a non-empty array or record of weights whose defined entries are
    finite and not negative, with [sum] the sum of the defined ones and [k]
    the number of [undefined] ones: when [k = 0] the input is returned as it
    is if [sum > 0] and a [RangeError] is thrown if [sum == 0]; when [k > 0]
    every [undefined] becomes [remaining / k] if [remaining = 1 - sum > 0] and
    [0] otherwise, the defined entries and the keys being kept.  For Scores
    with a [weight] field: the input is returned as it is when every weight
    is numeric; every exception is a [RangeError]; a returned container has
    the same keys, keeps each Score that has a weight and replaces each other
    Score [s] by [setWeight(s, remaining / k)] ([0] when [remaining <= 0]);
    for Scores built by [scor] (fewer than [2^53] of them), a container is
    returned whenever no running sum of the defined weights is infinite
    before an addition, in particular whenever their sum is finite; and when
    some [undefined] weight is present and a running sum is infinite before
    an addition, [toNumericSum] throws its [RangeError]. *)
Theorem distributeWeights_rule {T} :
  (forall c : coll (option float),
     values c <> [] -> Forall (fun w => valid_opt_weight w = true) (values c) ->
     let sum := fsum (defined (values c)) in
     let k := count_undefined (values c) in
     (k = 0%nat -> (zero <? sum)%float = true -> ScorV1.distributeWeights c = Ok c) /\
     (k = 0%nat -> (sum =? zero)%float = true ->
        exists msg, ScorV1.distributeWeights c = Err (RangeError msg)) /\
     ((0 < k)%nat ->
        let remaining := (one - sum)%float in
        let per := if (zero <? remaining)%float then (remaining / float_of_nat k)%float else zero in
        ScorV1.distributeWeights c =
        Ok (cmap (fun w => match w with Some x => Some x | None => Some per end) c))) /\
  (forall c : coll (ScorW.Scor T),
     let ws := map ScorW.weight (values c) in
     (forallb (fun s => isNumeric_o (ScorW.weight s)) (values c) = true ->
        ScorW.distributeWeights c = Ok c) /\
     (forall e, ScorW.distributeWeights c = Err e -> is_range_error e = true) /\
     (Forall (fun s => valid_opt_weight (ScorW.weight s) = true) (values c) ->
      forall c', ScorW.distributeWeights c = Ok c' ->
      let remaining := (one - fsum (defined ws))%float in
      let per := if (zero <? remaining)%float
                 then (remaining / float_of_nat (count_undefined ws))%float else zero in
      same_keys c c' /\
      Forall2 (fun s s' => (ScorW.weight s <> None /\ s' = s) \/
                           (ScorW.weight s = None /\ ScorW.setWeight s (Some per) = Ok s' /\
                            ScorW.weight s' = Some per))
              (values c) (values c')) /\
     (Forall (fun s => exists o, ScorW.scor o = Ok s) (values c) ->
      (Z.of_nat (List.length (values c)) < 2 ^ 53)%Z ->
      (forall i, (i < List.length (values c))%nat -> isNumeric_f (fsum (defined (firstn i ws))) = true) ->
      exists c', ScorW.distributeWeights c = Ok c') /\
     (Forall (fun s => exists o, ScorW.scor o = Ok s) (values c) ->
      (Z.of_nat (List.length (values c)) < 2 ^ 53)%Z ->
      isNumeric_f (fsum (defined ws)) = true ->
      exists c', ScorW.distributeWeights c = Ok c') /\
     (Forall (fun s => valid_opt_weight (ScorW.weight s) = true) (values c) ->
      (0 < count_undefined ws)%nat ->
      forall i, (i < List.length (values c))%nat -> isNumeric_f (fsum (defined (firstn i ws))) = false ->
      ScorW.distributeWeights c =
      Err (RangeError (INVALID_RANGE ++ ": expected sum to be numeric, but was ${sum}.")))).
Proof.
  split.
  - intros c Hne Hv sum k.
    pose proof (ScorV1_distribute_valid c Hne Hv) as Hd. cbv zeta in Hd.
    fold sum in Hd. fold k in Hd. rewrite Hd. clear Hd.
    split; [|split].
    + intros Hk0 Hlt. rewrite Hk0. cbn [Nat.eqb bind].
      rewrite eqb_comm, (ltb_not_eqb _ _ Hlt). reflexivity.
    + intros Hk0 Heq. rewrite Hk0. cbn [Nat.eqb]. rewrite Heq. cbn. eauto.
    + intros Hk remaining per.
      destruct (Nat.eqb k 0) eqn:Ek; [apply Nat.eqb_eq in Ek; lia|]. cbn [bind].
      fold remaining. fold per.
      assert (Hmap : forall w, In w (values c) ->
                (if isNumeric_o w then w else Some per) =
                match w with Some x => Some x | None => Some per end).
      { intros w Hw. eapply Forall_forall in Hv; [|exact Hw].
        destruct w as [x|]; [|reflexivity]. cbn in Hv |- *.
        rewrite (valid_weight_numeric _ Hv). reflexivity. }
      destruct c as [l|d]; cbn [cmap values] in *; f_equal; f_equal.
      * apply map_ext_in. exact Hmap.
      * apply map_ext_in. intros [key w] Hin. cbn. f_equal. apply Hmap.
        apply in_map_iff. exists (key, w). auto.
  - intros c ws. split; [apply ScorW_distribute_all_weighted|].
    split; [apply ScorW_distribute_err|].
    split; [|split; [|split]].
    2: { intros Hb Hlen Hp. apply ScorW_distribute_ok; assumption. }
    2: { intros Hb Hlen Ht. apply ScorW_distribute_ok; [assumption|assumption|].
         intros i _. apply prefix_numeric; [apply ScorW_built_valid; exact Hb|exact Ht]. }
    2: { intros Hv Hk i Hi Hn. apply (ScorW_distribute_overflow c i); assumption. }
    intros Hv c' H remaining per.
    assert (Hvw : Forall (fun w => valid_opt_weight w = true) ws).
    { apply Forall_forall. intros w Hw. apply in_map_iff in Hw as [s [<- Hs]].
      eapply Forall_forall in Hv; eauto. }
    assert (Hk : (List.length ws - List.length (filter isNumeric_o ws))%nat = count_undefined ws).
    { pose proof (count_filter_valid ws Hvw). lia. }
    assert (Hel : forall s s' : ScorW.Scor T, valid_opt_weight (ScorW.weight s) = true ->
              (if isNumeric_o (ScorW.weight s) then Ok s else ScorW.setWeight s (Some per)) = Ok s' ->
              (ScorW.weight s <> None /\ s' = s) \/
              (ScorW.weight s = None /\ ScorW.setWeight s (Some per) = Ok s' /\
               ScorW.weight s' = Some per)).
    { intros s s' Hs E. destruct (ScorW.weight s) as [x|] eqn:Ew.
      - cbn in Hs, E. rewrite (valid_weight_numeric _ Hs) in E. injection E as <-.
        left. split; [discriminate|reflexivity].
      - cbn in E. right. split; [reflexivity|split; [exact E|]].
        apply ScorW_scor_fields in E. apply E. }
    unfold ScorW.distributeWeights in H. cbv zeta in H. fold ws in H. rewrite Hk in H.
    destruct (Nat.eqb (count_undefined ws) 0) eqn:E0.
    + injection H as <-. split; [destruct c; cbn; auto|].
      apply (Forall2_refl_in _ _ _ Hv). intros s Hin Hs. left. split; [|reflexivity].
      destruct (ScorW.weight s) eqn:Ew; [discriminate|].
      exfalso. apply Nat.eqb_eq in E0.
      apply (count_undefined_zero ws E0). unfold ws. apply in_map_iff. eauto.
    + destruct (reduce_js toNumericSum ws zero) as [sm|e] eqn:Es; cbn [bind] in H; [|discriminate].
      apply (toNumericSum_valid _ _ _ Hvw) in Es. subst sm.
      fold (fsum (defined ws)) in H. fold remaining in H. fold per in H.
      destruct c as [l|d]; cbn [values same_keys] in *.
      * destruct (map_js _ l) as [l'|e] eqn:E; cbn [bind] in H; [|discriminate].
        injection H as <-. split; [exact I|]. apply map_js_forall2 in E.
        eapply Forall2_impl_in; [exact Hv|exact E|]. intros s s' Hs Hss'. apply Hel; auto.
      * destruct (map_js _ d) as [d'|e] eqn:E; cbn [bind] in H; [|discriminate].
        injection H as <-. apply map_js_forall2 in E.
        destruct (Forall2_dict _ (fun s s' =>
                    (if isNumeric_o (ScorW.weight s) then Ok s
                     else ScorW.setWeight s (Some per)) = Ok s') d d' E) as [Hk1 Hk2].
        { intros [key s] [key' s'] Hx. cbn in Hx |- *.
          destruct (if isNumeric_o (ScorW.weight s) then Ok s else ScorW.setWeight s (Some per))
            eqn:Et; cbn in Hx; [|discriminate].
          injection Hx as <- <-. auto. }
        split; [exact Hk1|].
        eapply Forall2_impl_in; [exact Hv|exact Hk2|]. intros s s' Hs Hss'. apply Hel; auto.
Qed.

(** One [undefined] weight next to [0.5] receives the remaining [0.5]; and
    two Scores built by [scor], with the weights [0.5] and [undefined], are
    distributed without an exception. *)
Lemma distributeWeights_rule_witness :
  ScorV1.distributeWeights (CList [None; Some half]) = Ok (CList [Some half; Some half]) /\
  exists s s0 c', ScorW.scor (unit_range_w half (Some half)) = Ok s /\
    ScorW.scor (unit_range_w half None) = Ok s0 /\
    ScorW.distributeWeights (CList [s; s0]) = Ok c'.
Proof.
  destruct (@distributeWeights_rule unit) as [H HW]. split.
  - destruct (H (CList [None; Some half]) ltac:(discriminate) ltac:(repeat constructor))
      as (_ & _ & H3).
    rewrite (H3 ltac:(cbn; lia)). vm_compute. reflexivity.
  - destruct (ScorW.scor (unit_range_w half (Some half))) as [s|e] eqn:Es;
      [|vm_compute in Es; discriminate].
    destruct (ScorW.scor (unit_range_w half None)) as [s0|e] eqn:Es0;
      [|vm_compute in Es0; discriminate].
    pose proof (ScorW_scor_fields _ _ Es) as (_ & _ & _ & Ew). cbn in Ew.
    pose proof (ScorW_scor_fields _ _ Es0) as (_ & _ & _ & Ew0). cbn in Ew0.
    destruct (HW (CList [s; s0])) as (_ & _ & _ & H4 & _).
    destruct H4 as [c' Hc'].
    + constructor; [exists (unit_range_w half (Some half)); exact Es|].
      constructor; [exists (unit_range_w half None); exact Es0|constructor].
    + cbn. lia.
    + intros i Hi. cbn [values map]. rewrite Ew, Ew0.
      destruct i as [|[|i]]; [vm_compute; reflexivity|vm_compute; reflexivity|cbn in Hi; lia].
    + exists s, s0, c'. split; [reflexivity|]. split; [reflexivity|]. exact Hc'.
Defined.

(** All weights defined with the sum [0] throw instead of returning the
    input; and with Scores, two weights [2^1023] next to a Score without
    weight throw a [RangeError], the running sum having overflowed. *)
Lemma distributeWeights_cex :
  (exists msg, ScorV1.distributeWeights (CList [Some zero]) = Err (RangeError msg)) /\
  exists s s0 msg, ScorW.scor (unit_range_w half (Some big)) = Ok s /\
    ScorW.scor (unit_range_w half None) = Ok s0 /\
    ScorW.distributeWeights (CList [s; s; s0]) = Err (RangeError msg).
Proof.
  split; [eexists; reflexivity|].
  eexists; eexists; eexists.
  split; [reflexivity|]. split; [reflexivity|]. reflexivity.
Qed.

(** C4: two Scores [{min: 0, max: 1, toValue: () => 1}] with the finite,
    non-negative weights [[2^1023, 2^1023]] pass every check of
    [createToMean], and the returned function yields [NaN] (the numerator
    and the divisor both overflow to [Infinity]), which is not in [[0, 1]]. *)
Theorem createToMean_overflow_nan :
  exists s f r, ScorV1.scor (unit_range one) = Ok s /\
    ScorV1.createToMean (ScorV1.MList [s; s] (Some [big; big])) = Ok f /\
    ScorV1.forItem s tt = Ok one /\ valid_weight big = true /\
    f tt = Ok r /\ is_nan r = true.
Proof.
  eexists; eexists; eexists.
  split; [reflexivity|]. split; [reflexivity|]. split; [reflexivity|].
  split; [reflexivity|]. split; [reflexivity|]. vm_compute. reflexivity.
Qed.

(** C5: [scor] throws a [RangeError] whose message starts with
    "Invalid range" when [min] is given and not finite, likewise for [max],
    for a [weight] that is given and not finite or negative, and for
    [min > max]; when [min] or [max] is missing it returns a Score storing
    the given options whose [forValue] and [forItem] throw that
    [RangeError]; when [min < max], [forItem] throws the [TypeError]
    "Missing toValue" if no [toValue] is set, and is [forValue(toValue(item))]
    otherwise.  The constructor without weights behaves as this one with no
    weight. *)
Theorem scor_errors {T} (mn mx : option float) (tv : option (T -> result jsval)) (w : option float) :
  let o := ScorW.mkOptions mn mx tv w in
  let range_error := exists msg, ScorW.scor o = Err (RangeError msg) /\
                                 starts_with INVALID_RANGE msg = true in
  (valid_bound mn = false -> range_error) /\
  (valid_bound mn = true -> valid_bound mx = false -> range_error) /\
  (valid_bound mn = true -> valid_bound mx = true -> valid_opt_weight w = false -> range_error) /\
  (forall a b, mn = Some a -> mx = Some b -> isNumeric_f a = true -> isNumeric_f b = true ->
     valid_opt_weight w = true -> (b <? a)%float = true -> range_error) /\
  (valid_bound mn = true -> valid_bound mx = true -> valid_opt_weight w = true ->
     (mn = None \/ mx = None) ->
     exists s, ScorW.scor o = Ok s /\
       ScorW.min s = mn /\ ScorW.max s = mx /\ ScorW.toValue s = tv /\ ScorW.weight s = w /\
       (forall v, ScorW.forValue s v = Err (RangeError INVALID_RANGE)) /\
       (forall item, ScorW.forItem s item = Err (RangeError INVALID_RANGE))) /\
  (forall a b, mn = Some a -> mx = Some b -> isNumeric_f a = true -> isNumeric_f b = true ->
     valid_opt_weight w = true -> (a <? b)%float = true ->
     exists s, ScorW.scor o = Ok s /\
       (tv = None -> forall item, ScorW.forItem s item = Err (TypeError MISSING_TO_VALUE)) /\
       (forall f, tv = Some f ->
          forall item, ScorW.forItem s item = bind (f item) (ScorW.forValue s))) /\
  ScorV1.scor (ScorV1.mkOptions mn mx tv) = result_map to_v1 (ScorW.scor (ScorW.mkOptions mn mx tv None)).
Proof.
  intros o range_error. subst o range_error.
  assert (Hw : forall b : bool, valid_opt_weight w = negb b ->
            match w with Some x => negb (isNumeric_f x) || (x <? zero)%float | None => false end = b).
  { intros b. destruct w as [x|]; cbn; unfold valid_weight.
    - destruct (isNumeric_f x), (x <? zero)%float, b; cbn; congruence.
    - destruct b; cbn; congruence. }
  assert (Hb : forall (b : option float) (c : bool), valid_bound b = negb c ->
            match b with Some m => negb (isNumeric_f m) | None => false end = c).
  { intros b c. destruct b as [m|], c; cbn; try destruct (isNumeric_f m); cbn; congruence. }
  split; [|split; [|split; [|split; [|split; [|split]]]]].
  - intros H1. unfold ScorW.scor; cbn. rewrite (Hb mn true H1). eauto.
  - intros H1 H2. unfold ScorW.scor; cbn. rewrite (Hb mn false H1), (Hb mx true H2). eauto.
  - intros H1 H2 H3. unfold ScorW.scor; cbn.
    rewrite (Hb mn false H1), (Hb mx false H2), (Hw true H3). eauto.
  - intros a b -> -> Ha Hb' H3 Hlt. unfold ScorW.scor; cbn.
    rewrite Ha, Hb', (Hw false H3), Hlt. cbn. eauto.
  - intros H1 H2 H3 Hn. unfold ScorW.scor; cbn.
    rewrite (Hb mn false H1), (Hb mx false H2), (Hw false H3).
    destruct Hn as [->| ->]; [|destruct mn]; eexists; (split; [reflexivity|]); cbn;
      unfold forValueNotAllowed; auto 8.
  - intros a b -> -> Ha Hb' H3 Hlt. unfold ScorW.scor; cbn.
    rewrite Ha, Hb', (Hw false H3), (ltb_asym _ _ Hlt), (ltb_not_eqb _ _ Hlt). cbn.
    eexists; split; [reflexivity|]. cbn. split.
    + intros ->. reflexivity.
    + intros f -> item. reflexivity.
  - unfold ScorV1.scor, ScorW.scor; cbn.
    destruct (match mn with Some m => _ | None => false end); [reflexivity|].
    destruct (match mx with Some m => _ | None => false end); [reflexivity|].
    destruct mn as [a|], mx as [b|]; try reflexivity.
    destruct (b <? a)%float; [reflexivity|].
    destruct (a =? b)%float; reflexivity.
Qed.

Lemma scor_errors_witness :
  exists msg, ScorW.scor (ScorW.mkOptions (Some one) (Some zero) (@None (unit -> result jsval)) None)
              = Err (RangeError msg) /\ starts_with INVALID_RANGE msg = true.
Proof.
  destruct (scor_errors (T:=unit) (Some one) (Some zero) None None) as (_ & _ & _ & H & _).
  apply (H one zero eq_refl eq_refl); reflexivity.
Defined.

(** C6: [createToMean] of [src/scor.ts] throws a [TypeError] when there are
    no Scores, and when a Score has no [toValue], or no numeric [min] or
    [max].  The Score module with weights throws for no Scores, a missing
    [toValue] or a missing [min], but not for a missing [max]: a single Score
    without [max] is accepted, and the function it returns throws a
    [RangeError] on every item. *)
Theorem createToMean_eager_checks :
  (forall T (m : ScorV1.MeanInput T), ScorV1.scores_of m = [] ->
     exists msg, ScorV1.createToMean m = Err (TypeError msg)) /\
  (forall T (m : ScorV1.MeanInput T) s, In s (ScorV1.scores_of m) ->
     ScorV1.toValue s = None \/ isNumeric_o (ScorV1.min s) = false \/
     isNumeric_o (ScorV1.max s) = false ->
     exists msg, ScorV1.createToMean m = Err (TypeError msg)) /\
  (forall T (c : coll (ScorW.Scor T)), values c = [] ->
     exists msg, ScorW.createToMean c = Err (TypeError msg)) /\
  (forall T (c : coll (ScorW.Scor T)) s, In s (values c) ->
     ScorW.toValue s = None \/ isNumeric_o (ScorW.min s) = false ->
     exists msg, ScorW.createToMean c = Err (TypeError msg)) /\
  (exists s f, ScorW.scor no_max_w = Ok s /\ ScorW.max s = None /\
     ScorW.createToMean (CList [s]) = Ok f /\
     forall item, f item = Err (RangeError INVALID_RANGE)).
Proof.
  split; [intros T m H; apply ScorV1_createToMean_pre; left; exact H|].
  split.
  { intros T m s Hin Hs. apply ScorV1_createToMean_pre. right.
    apply existsb_exists. exists s. split; [exact Hin|].
    destruct (ScorV1.toValue s), (isNumeric_o (ScorV1.min s)), (isNumeric_o (ScorV1.max s));
      cbn; intuition congruence. }
  split; [intros T c H; apply ScorW_createToMean_pre; left; exact H|].
  split.
  { intros T c s Hin Hs. apply ScorW_createToMean_pre. right.
    apply existsb_exists. exists s. split; [exact Hin|].
    destruct (ScorW.toValue s), (isNumeric_o (ScorW.min s)); cbn; intuition congruence. }
  eexists; eexists; split; [reflexivity|]. split; [reflexivity|].
  split; [reflexivity|]. intros item. reflexivity.
Qed.

(** C7: the weights' [distributeWeights] throws a [TypeError] for an empty
    input, a [RangeError] when a defined weight is not finite or negative,
    and a [RangeError] when every weight is defined and their sum is [0].
    The variant over Scores returns its input unchanged whenever every Score
    has a numeric weight, and throws nothing but [RangeError]s. *)
Theorem distributeWeights_failures {T} :
  (forall c : coll (option float), values c = [] ->
     exists msg, ScorV1.distributeWeights c = Err (TypeError msg)) /\
  (forall (c : coll (option float)) x, In (Some x) (values c) -> valid_weight x = false ->
     exists msg, ScorV1.distributeWeights c = Err (RangeError msg)) /\
  (forall c : coll (option float), values c <> [] ->
     Forall (fun w => valid_opt_weight w = true) (values c) ->
     count_undefined (values c) = 0%nat ->
     (fsum (defined (values c)) =? zero)%float = true ->
     exists msg, ScorV1.distributeWeights c = Err (RangeError msg)) /\
  (forall c : coll (ScorW.Scor T),
     forallb (fun s => isNumeric_o (ScorW.weight s)) (values c) = true ->
     ScorW.distributeWeights c = Ok c) /\
  (forall (c : coll (ScorW.Scor T)) e,
     ScorW.distributeWeights c = Err e -> is_range_error e = true).
Proof.
  split.
  { intros c H. unfold ScorV1.distributeWeights, ScorV1.assertWeights. rewrite H. cbn. eauto. }
  split.
  { intros c x Hin Hx. unfold ScorV1.distributeWeights, ScorV1.assertWeights.
    destruct (values c) as [|w ws] eqn:Ec; [destruct Hin|]. cbn [List.length Nat.eqb].
    destruct (sumAndCount_invalid (w :: ws) (zero, 0%nat) x Hin Hx) as [msg Hm].
    rewrite Hm. cbn. eauto. }
  split.
  { intros c Hne Hv Hk Heq. rewrite (ScorV1_distribute_valid c Hne Hv). cbv zeta.
    rewrite Hk. cbn [Nat.eqb]. rewrite Heq. cbn. eauto. }
  split; [apply ScorW_distribute_all_weighted|apply ScorW_distribute_err].
Qed.

(** An empty array is rejected. *)
Lemma distributeWeights_failures_witness :
  exists msg, ScorV1.distributeWeights (@CList (option float) []) = Err (TypeError msg).
Proof.
  apply (proj1 (@distributeWeights_failures unit)). reflexivity.
Defined.

(** The variant over Scores returns an empty array, and a Score of weight
    [0] alone, unchanged. *)
Lemma distributeWeights_failures_cex :
  ScorW.distributeWeights (CList (@nil (ScorW.Scor unit))) = Ok (CList []) /\
  exists s, ScorW.scor (unit_range_w half (Some zero)) = Ok s /\
    ScorW.distributeWeights (CList [s]) = Ok (CList [s]).
Proof.
  split; [reflexivity|].
  eexists. split; [reflexivity|]. reflexivity.
Qed.

(** C8: [getItemRange(toValue, items)] applies the extractor to every item,
    keeps exactly the extracted values that are finite numbers (dropping
    [NaN], [Infinity], [-Infinity], [null] and [undefined]) and returns the
    least and the greatest of them; when none remains (in particular for an
    empty list) it throws a [RangeError] whose message starts with
    "Invalid range"; and permuting the items does not change the outcome. *)
Theorem getItemRange_spec {T} (f : T -> jsval) (items : list T) :
  let values := filter_numeric (map f items) in
  (forall v, In v values <->
             (exists it, In it items /\ f it = JNum v) /\ isNumeric_f v = true) /\
  (values = [] ->
   exists msg, ScorV1.getItemRange (fun it => Ok (f it)) items = Err (RangeError msg)
               /\ starts_with INVALID_RANGE msg = true) /\
  (values <> [] ->
   exists mn mx, ScorV1.getItemRange (fun it => Ok (f it)) items = Ok (mn, mx)
                 /\ In mn values /\ In mx values
                 /\ forall v, In v values -> (v <? mn)%float = false /\ (mx <? v)%float = false) /\
  (forall items', Permutation items items' ->
   ScorV1.getItemRange (fun it => Ok (f it)) items' =
   ScorV1.getItemRange (fun it => Ok (f it)) items).
Proof.
  intros values.
  pose proof (filter_numeric_numeric (map f items)) as Hnum.
  unfold ScorV1.getItemRange. rewrite map_js_ok. cbn [bind].
  split; [|split; [|split]].
  - intros v. unfold values. rewrite filter_numeric_in, in_map_iff.
    split; intros [[it [H1 H2]] H3]; eauto.
  - intros He. fold values. rewrite He. eexists; split; [reflexivity|reflexivity].
  - intros Hne. fold values.
    destruct (math_min_spec values Hne Hnum) as [Hmin1 Hmin2].
    destruct (math_max_spec values Hne Hnum) as [Hmax1 Hmax2].
    exists (math_min values), (math_max values).
    split; [destruct values; [congruence|reflexivity]|].
    split; [auto|split; [auto|]].
    intros v Hv.
    assert (Hvn : not_nan v)
      by (apply numeric_not_nan; eapply Forall_forall in Hnum; eauto).
    assert (Hmn : not_nan (math_min values))
      by (apply numeric_not_nan; eapply Forall_forall in Hnum; eauto).
    assert (Hmx : not_nan (math_max values))
      by (apply numeric_not_nan; eapply Forall_forall in Hnum; eauto).
    split.
    + destruct (v <? math_min values)%float eqn:E; auto.
      exfalso. apply (Hmin2 v Hv). apply ltb_jcmp; auto.
    + destruct (math_max values <? v)%float eqn:E; auto.
      exfalso. apply (Hmax2 v Hv). apply ltb_jcmp; auto.
  - intros items' Hp. rewrite map_js_ok. cbn [bind].
    assert (Hp' : Permutation (filter_numeric (map f items)) (filter_numeric (map f items')))
      by (apply filter_numeric_perm, Permutation_map; auto).
    destruct (filter_numeric (map f items)) as [|x xs] eqn:E.
    + apply Permutation_nil in Hp'. rewrite Hp'. reflexivity.
    + destruct (filter_numeric (map f items')) as [|y ys] eqn:E'.
      * symmetry in Hp'. apply Permutation_nil in Hp'. discriminate.
      * rewrite (math_min_perm _ _ Hp'), (math_max_perm _ _ Hp'); auto.
Qed.

(** Swapping two items does not change the range. *)
Lemma getItemRange_spec_witness :
  ScorV1.getItemRange (fun it => Ok (JNum it)) [half; one] =
  ScorV1.getItemRange (fun it => Ok (JNum it)) [one; half].
Proof.
  destruct (getItemRange_spec (fun it => JNum it) [one; half]) as (_ & _ & _ & H).
  apply H. apply perm_swap.
Defined.

(** C9: [setMin], [setMax], [setRange], [setToValue] and [setWeight] return,
    when they return a Score, one with the given field(s) and every other
    one of [min], [max], [toValue] and [weight] carried over; and for a
    Score [s] built by [scor] with [s.min = m], [setMin(s, m)] returns [s]
    itself, so the same [forValue] and [forItem]. *)
Theorem setters_carry_fields {T} :
  (forall (s : ScorW.Scor T) m s', ScorW.setMin s m = Ok s' ->
     ScorW.min s' = Some m /\ ScorW.max s' = ScorW.max s /\
     ScorW.toValue s' = ScorW.toValue s /\ ScorW.weight s' = ScorW.weight s) /\
  (forall (s : ScorW.Scor T) m s', ScorW.setMax s m = Ok s' ->
     ScorW.min s' = ScorW.min s /\ ScorW.max s' = Some m /\
     ScorW.toValue s' = ScorW.toValue s /\ ScorW.weight s' = ScorW.weight s) /\
  (forall (s : ScorW.Scor T) a b s', ScorW.setRange s a b = Ok s' ->
     ScorW.min s' = Some a /\ ScorW.max s' = Some b /\
     ScorW.toValue s' = ScorW.toValue s /\ ScorW.weight s' = ScorW.weight s) /\
  (forall (s : ScorW.Scor T) tv s', ScorW.setToValue s tv = Ok s' ->
     ScorW.min s' = ScorW.min s /\ ScorW.max s' = ScorW.max s /\
     ScorW.toValue s' = Some tv /\ ScorW.weight s' = ScorW.weight s) /\
  (forall (s : ScorW.Scor T) w s', ScorW.setWeight s w = Ok s' ->
     ScorW.min s' = ScorW.min s /\ ScorW.max s' = ScorW.max s /\
     ScorW.toValue s' = ScorW.toValue s /\ ScorW.weight s' = w) /\
  (forall (s : ScorW.Scor T) o m, ScorW.scor o = Ok s -> ScorW.min s = Some m -> ScorW.setMin s m = Ok s) /\
  (forall (s1 : ScorV1.Scor T) m s', ScorV1.setMin s1 m = Ok s' ->
     ScorV1.min s' = Some m /\ ScorV1.max s' = ScorV1.max s1 /\ ScorV1.toValue s' = ScorV1.toValue s1) /\
  (forall (s1 : ScorV1.Scor T) m s', ScorV1.setMax s1 m = Ok s' ->
     ScorV1.min s' = ScorV1.min s1 /\ ScorV1.max s' = Some m /\ ScorV1.toValue s' = ScorV1.toValue s1) /\
  (forall (s1 : ScorV1.Scor T) a b s', ScorV1.setRange s1 a b = Ok s' ->
     ScorV1.min s' = Some a /\ ScorV1.max s' = Some b /\ ScorV1.toValue s' = ScorV1.toValue s1) /\
  (forall (s1 : ScorV1.Scor T) tv s', ScorV1.setToValue s1 tv = Ok s' ->
     ScorV1.min s' = ScorV1.min s1 /\ ScorV1.max s' = ScorV1.max s1 /\ ScorV1.toValue s' = Some tv) /\
  (forall (s1 : ScorV1.Scor T) o m, ScorV1.scor o = Ok s1 -> ScorV1.min s1 = Some m -> ScorV1.setMin s1 m = Ok s1).
Proof.
  split; [intros ? m s' H; apply ScorW_scor_fields in H; exact H|].
  split; [intros ? m s' H; apply ScorW_scor_fields in H; exact H|].
  split; [intros ? a b s' H; apply ScorW_scor_fields in H; exact H|].
  split; [intros ? tv s' H; apply ScorW_scor_fields in H; exact H|].
  split; [intros ? w s' H; apply ScorW_scor_fields in H; exact H|].
  split.
  { intros s o m H Hm. pose proof (ScorW_scor_fields o s H) as (H1 & H2 & H3 & H4).
    unfold ScorW.setMin. rewrite <- Hm, H1, H2, H3, H4. destruct o; exact H. }
  split; [intros ? m s' H; apply ScorV1_scor_fields in H; exact H|].
  split; [intros ? m s' H; apply ScorV1_scor_fields in H; exact H|].
  split; [intros ? a b s' H; apply ScorV1_scor_fields in H; exact H|].
  split; [intros ? tv s' H; apply ScorV1_scor_fields in H; exact H|].
  intros s1 o m H Hm. pose proof (ScorV1_scor_fields o s1 H) as (H1 & H2 & H3).
  unfold ScorV1.setMin. rewrite <- Hm, H1, H2, H3. destruct o; exact H.
Qed.

Lemma setters_carry_fields_witness :
  exists s, ScorW.scor (unit_range_w half None) = Ok s /\ ScorW.setMin s zero = Ok s.
Proof.
  destruct (ScorW.scor (unit_range_w half None)) as [s|e] eqn:E;
    [|vm_compute in E; discriminate].
  exists s; split; [reflexivity|].
  destruct (@setters_carry_fields unit) as (_ & _ & _ & _ & _ & H & _).
  apply (H s (unit_range_w half None) zero E).
  rewrite (proj1 (ScorW_scor_fields _ _ E)). reflexivity.
Defined.

(** C10: whenever [getItemRange(toValue, items)] succeeds, its range has two
    finite bounds with [min <= max]; hence [scorForItems(toValue, items)]
    returns a Score (none of the constructor's [RangeError] branches is
    taken) with that range, whose [forValue] never throws and whose
    [forItem] only throws what [toValue] itself throws. *)
Theorem scorForItems_total {T} (toValue : T -> result jsval) (items : list T) mn mx :
  ScorV1.getItemRange toValue items = Ok (mn, mx) ->
  isNumeric_f mn = true /\ isNumeric_f mx = true /\ (mx <? mn)%float = false /\
  exists s, ScorV1.scorForItems toValue items = Ok s /\
            ScorV1.min s = Some mn /\ ScorV1.max s = Some mx /\
            (forall v, exists r, ScorV1.forValue s v = Ok r) /\
            (forall item, (exists r, ScorV1.forItem s item = Ok r) \/
                          (exists e, toValue item = Err e /\ ScorV1.forItem s item = Err e)).
Proof.
  intros H.
  assert (Hr : isNumeric_f mn = true /\ isNumeric_f mx = true /\ (mx <? mn)%float = false).
  { unfold ScorV1.getItemRange in H.
    destruct (map_js toValue items) as [vs|e]; cbn [bind] in H; [|discriminate].
    pose proof (filter_numeric_numeric vs) as Hnum.
    destruct (filter_numeric vs) as [|x xs] eqn:E; [discriminate|].
    injection H as <- <-.
    assert (Hne : x :: xs <> []) by discriminate.
    destruct (math_min_spec _ Hne Hnum) as [Hmin1 _].
    destruct (math_max_spec _ Hne Hnum) as [Hmax1 Hmax2].
    assert (Hn1 : isNumeric_f (math_min (x :: xs)) = true)
      by (eapply Forall_forall in Hnum; eauto).
    assert (Hn2 : isNumeric_f (math_max (x :: xs)) = true)
      by (eapply Forall_forall in Hnum; eauto).
    split; [auto|split; [auto|]].
    destruct (math_max (x :: xs) <? math_min (x :: xs))%float eqn:Elt; auto.
    exfalso. apply (Hmax2 _ Hmin1). apply ltb_jcmp; auto using numeric_not_nan. }
  destruct Hr as [Hmn [Hmx Hle]].
  split; [auto|split; [auto|split; [auto|]]].
  unfold ScorV1.scorForItems. rewrite H. cbn [bind fst snd].
  unfold ScorV1.scor. cbn [ScorV1.o_min ScorV1.o_max ScorV1.o_toValue].
  rewrite Hmn, Hmx, Hle. cbn [negb].
  destruct (mn =? mx)%float.
  - eexists; split; [reflexivity|]. cbn.
    split; [auto|split; [auto|split]].
    + intros v. unfold getZero. eauto.
    + intros item. left. unfold getZero. eauto.
  - eexists; split; [reflexivity|]. cbn.
    split; [auto|split; [auto|split]].
    + intros v. unfold forValue_in.
      destruct (_ || _); [eauto|]. destruct (_ <=? _)%float; eauto.
    + intros item. unfold forItem_in. cbn.
      destruct (toValue item) as [v|e]; cbn [bind].
      * left. unfold forValue_in.
        destruct (_ || _); [eauto|]. destruct (_ <=? _)%float; eauto.
      * right. eauto.
Qed.

(** The range of [[1, 0.5]]. *)
Lemma scorForItems_total_witness :
  ScorV1.getItemRange (fun x => Ok (JNum x)) [one; half] = Ok (half, one) /\
  isNumeric_f half = true /\ isNumeric_f one = true /\ (one <? half)%float = false.
Proof.
  assert (H : ScorV1.getItemRange (fun x => Ok (JNum x)) [one; half] = Ok (half, one))
    by (vm_compute; reflexivity).
  split; [exact H|].
  destruct (scorForItems_total _ _ _ _ H) as (H1 & H2 & H3 & _). auto.
Defined.

(** ** Further properties of the code *)

Lemma forallb_seq_shift (f : nat -> bool) k n :
  forallb f (seq (S k) n) = forallb (fun i => f (S i)) (seq k n).
Proof.
  rewrite <- seq_shift. induction (seq k n) as [|x l IH]; cbn; [reflexivity|].
  rewrite IH. reflexivity.
Qed.

Lemma sumAndCount_closed ws s0 n0 :
  reduce_js ScorV1.sumAndCountWeights ws (s0, n0) =
  if forallb valid_opt_weight ws
  then Ok (fold_left (fun a b => (a + b)%float) (defined ws) s0, (n0 + count_undefined ws)%nat)
  else Err (RangeError (INVALID_RANGE ++ ": Expected all (defined) weights to be numeric and >= 0")).
Proof.
  revert s0 n0. induction ws as [|[x|] ws IH]; intros s0 n0; cbn.
  - rewrite Nat.add_0_r. reflexivity.
  - unfold valid_weight.
    destruct (isNumeric_f x), (x <? zero)%float; cbn; try reflexivity. apply IH.
  - rewrite IH. destruct (forallb valid_opt_weight ws); [|reflexivity].
    rewrite Nat.add_succ_r. reflexivity.
Qed.

(** X1: [isNumeric] of [src/scor.ts] holds exactly for the finite numbers: not NaN, not +Infinity, not -Infinity. *)
Theorem isNumeric_spec (x : float) :
  isNumeric_f x = true <-> is_nan x = false /\ x <> infinity /\ x <> neg_infinity.
Proof.
  split.
  - intros H. split; [exact (numeric_not_nan x H)|].
    destruct (numeric_shape x H) as [[s Hs]|[s [m [e Hs]]]];
      split; intros ->; rewrite ?Prim2SF_infinity, ?Prim2SF_neg_infinity in Hs; discriminate.
  - intros (Hn & Hi & Hm). unfold isNumeric_f. rewrite !ltb_spec, Prim2SF_infinity, Prim2SF_neg_infinity.
    destruct (Prim2SF x) as [[]|[]| |[] m e] eqn:E; try reflexivity.
    + exfalso. apply Hm. apply Prim2SF_inj. rewrite E, Prim2SF_neg_infinity. reflexivity.
    + exfalso. apply Hi. apply Prim2SF_inj. rewrite E, Prim2SF_infinity. reflexivity.
    + exfalso. unfold is_nan in Hn. rewrite eqb_spec, E in Hn. discriminate.
Qed.

(** X2: [weights.reduce(toNumericSum, acc)] skips undefined weights and adds the others left to right from [acc]; it throws the RangeError as soon as one running sum (checked before each addition) is not finite, and otherwise returns the full sum. *)
Theorem toNumericSum_reduce (ws : list (option float)) (acc : float) :
  reduce_js toNumericSum ws acc =
  if forallb (fun i => isNumeric_f (fold_left (fun a b => (a + b)%float)
                                               (numeric_values (firstn i ws)) acc))
             (seq 0 (List.length ws))
  then Ok (fold_left (fun a b => (a + b)%float) (numeric_values ws) acc)
  else Err (RangeError (INVALID_RANGE ++ ": expected sum to be numeric, but was ${sum}.")).
Proof.
  revert acc. induction ws as [|w ws IH]; intros acc; [reflexivity|].
  cbn [List.length seq forallb reduce_js]. rewrite forallb_seq_shift.
  cbn [firstn numeric_values fold_left].
  unfold toNumericSum at 1. destruct (isNumeric_f acc); cbn [negb andb bind]; [|reflexivity].
  destruct w as [x|]; cbn [isNumeric_o numeric_values firstn].
  - destruct (isNumeric_f x); cbn [negb fold_left]; apply IH.
  - apply IH.
Qed.

(** X3: [assertWeights] throws a TypeError on an empty list, a RangeError when a defined weight is not finite or negative, a RangeError when all weights are defined and their sum is 0; otherwise it returns whether all weights are defined. *)
Theorem assertWeights_spec (ws : list (option float)) :
  ScorV1.assertWeights ws =
  if Nat.eqb (List.length ws) 0 then Err (TypeError "Expected at least one weight.")
  else if forallb valid_opt_weight ws then
    if Nat.eqb (count_undefined ws) 0 then
      if (fsum (defined ws) =? zero)%float
      then Err (RangeError (INVALID_RANGE ++ ": expected sum to be > 0 when all weights are defined."))
      else Ok true
    else Ok false
  else Err (RangeError (INVALID_RANGE ++ ": Expected all (defined) weights to be numeric and >= 0")).
Proof.
  unfold ScorV1.assertWeights. destruct (Nat.eqb _ 0); [reflexivity|].
  rewrite sumAndCount_closed. destruct (forallb valid_opt_weight ws); reflexivity.
Qed.

Lemma lookup_map_js {S} (d : list (string * S)) (wd : list (string * float)) ws :
  Forall2 (fun key w => lookup_key key wd = Some w) (map fst d) ws ->
  map_js (fun key => match lookup_key key wd with
                     | Some w => Ok w
                     | None => Err (TypeError "Expected same keys scores and weights, but missing key '${key}'.")
                     end) (map fst d) = Ok ws.
Proof.
  revert ws. induction d as [|[k s] d IH]; intros ws H; cbn in *; inversion H; subst; [reflexivity|].
  match goal with Hk : lookup_key k wd = Some _ |- _ => rewrite Hk end. cbn.
  erewrite IH by eassumption. reflexivity.
Qed.

Lemma map_js_same_err {A B} (g : A -> result B) l x e :
  In x l -> g x = Err e -> (forall y, (exists b, g y = Ok b) \/ g y = Err e) -> map_js g l = Err e.
Proof.
  intros Hin Hx Hall. induction l as [|y l IH]; [destruct Hin|]. cbn.
  destruct Hin as [->|Hin]; [rewrite Hx; reflexivity|].
  destruct (Hall y) as [[b Hb]|Hb]; rewrite Hb; cbn; [|reflexivity].
  rewrite (IH Hin). reflexivity.
Qed.

Lemma score_check_ready {T} (l : list (ScorV1.Scor T)) :
  existsb (fun s => match ScorV1.toValue s with None => true | Some _ => false end
                    || negb (isNumeric_o (ScorV1.min s)) || negb (isNumeric_o (ScorV1.max s))) l =
  negb (forallb score_ready l).
Proof.
  induction l as [|s l IH]; cbn; [reflexivity|]. rewrite IH. unfold score_ready.
  destruct (ScorV1.toValue s), (isNumeric_o (ScorV1.min s)), (isNumeric_o (ScorV1.max s)),
    (forallb score_ready l); reflexivity.
Qed.

Lemma defined_map_Some ws : defined (map Some ws) = ws.
Proof. induction ws; cbn; congruence. Qed.

Lemma count_undefined_map_Some ws : count_undefined (map Some ws) = 0%nat.
Proof. induction ws; cbn; auto. Qed.

Lemma valid_opt_map_Some ws : forallb valid_opt_weight (map Some ws) = forallb valid_weight ws.
Proof. induction ws; cbn; congruence. Qed.

Lemma assertWeights_Some ws : ws <> [] ->
  ScorV1.assertWeights (map Some ws) =
  if forallb valid_weight ws then
    if (fsum ws =? zero)%float
    then Err (RangeError (INVALID_RANGE ++ ": expected sum to be > 0 when all weights are defined."))
    else Ok true
  else Err (RangeError (INVALID_RANGE ++ ": Expected all (defined) weights to be numeric and >= 0")).
Proof.
  intros Hne. unfold ScorV1.assertWeights.
  rewrite length_map. destruct ws as [|w ws']; [congruence|]. cbn [List.length Nat.eqb].
  rewrite sumAndCount_closed, valid_opt_map_Some.
  destruct (forallb valid_weight (w :: ws')); [|reflexivity]. cbn [bind].
  rewrite count_undefined_map_Some, defined_map_Some. reflexivity.
Qed.

Lemma zero_add_eqb w : ((zero + w) =? zero)%float = (w =? zero)%float.
Proof.
  rewrite !eqb_spec, add_spec. change (Prim2SF zero) with (S754_zero false).
  destruct (Prim2SF w) as [[]|[]| |[] m e]; reflexivity.
Qed.

(** X4: [createToMean] on a keyed mapping of Scores behaves as on the list of its Scores: without weights always, and with a weight record when the weights are looked up key by key. *)
Theorem createToMean_record_as_list {T} :
  (forall d : list (string * ScorV1.Scor T),
     ScorV1.createToMean (ScorV1.MDict d None) = ScorV1.createToMean (ScorV1.MList (map snd d) None)) /\
  (forall (d : list (string * ScorV1.Scor T)) wd ws,
     Forall2 (fun key w => lookup_key key wd = Some w) (map fst d) ws ->
     ScorV1.createToMean (ScorV1.MDict d (Some wd)) =
     ScorV1.createToMean (ScorV1.MList (map snd d) (Some ws))).
Proof.
  split; [reflexivity|].
  intros d wd ws H. unfold ScorV1.createToMean at 1. rewrite (lookup_map_js d wd ws H).
  reflexivity.
Qed.

(** X5: [createToMean] on a keyed mapping with a weight record lacking one of the Scores' keys throws the TypeError about a missing key. *)
Theorem createToMean_missing_key {T} (d : list (string * ScorV1.Scor T)) wd key :
  In key (map fst d) -> lookup_key key wd = None ->
  ScorV1.createToMean (ScorV1.MDict d (Some wd)) =
  Err (TypeError "Expected same keys scores and weights, but missing key '${key}'.").
Proof.
  intros Hin Hk. unfold ScorV1.createToMean.
  erewrite map_js_same_err; [reflexivity|exact Hin|rewrite Hk; reflexivity|].
  intros y. destruct (lookup_key y wd); eauto.
Qed.

(** X6: For a non-empty list of ready Scores, [createToMean] with weights throws a TypeError when the lengths differ, a RangeError when a weight is not finite or negative, a RangeError when the weights sum to 0; a single Score with a positive weight gives back its [forItem]. *)
Theorem createToMean_weight_checks {T} (l : list (ScorV1.Scor T)) (ws : list float) :
  l <> [] -> forallb score_ready l = true ->
  (List.length ws <> List.length l ->
     ScorV1.createToMean (ScorV1.MList l (Some ws)) =
     Err (TypeError "Expected scores and weights to have same length.")) /\
  (List.length ws = List.length l -> forallb valid_weight ws = false ->
     ScorV1.createToMean (ScorV1.MList l (Some ws)) =
     Err (RangeError (INVALID_RANGE ++ ": Expected all (defined) weights to be numeric and >= 0"))) /\
  (List.length ws = List.length l -> forallb valid_weight ws = true -> (fsum ws =? zero)%float = true ->
     ScorV1.createToMean (ScorV1.MList l (Some ws)) =
     Err (RangeError (INVALID_RANGE ++ ": expected sum to be > 0 when all weights are defined."))) /\
  (forall s w, l = [s] -> ws = [w] -> valid_weight w = true -> (w =? zero)%float = false ->
     ScorV1.createToMean (ScorV1.MList l (Some ws)) = Ok (ScorV1.forItem s)).
Proof.
  intros Hne Hr.
  assert (Hl : Nat.eqb (List.length l) 0 = false) by (destruct l; [congruence|reflexivity]).
  unfold ScorV1.createToMean. cbn [bind]. rewrite Hl, score_check_ready, Hr. cbn [negb].
  split; [|split; [|split]].
  - intros Hlen. apply Nat.eqb_neq in Hlen. rewrite Hlen. reflexivity.
  - intros Hlen Hv. rewrite (proj2 (Nat.eqb_eq _ _) Hlen). cbn [negb].
    rewrite assertWeights_Some, Hv by (destruct ws, l; cbn in *; congruence). reflexivity.
  - intros Hlen Hv Hz. rewrite (proj2 (Nat.eqb_eq _ _) Hlen). cbn [negb].
    rewrite assertWeights_Some, Hv, Hz by (destruct ws, l; cbn in *; congruence). reflexivity.
  - intros s w -> -> Hv Hz. cbn. unfold ScorV1.assertWeights. cbn.
    unfold valid_weight in Hv. destruct (isNumeric_f w), (w <? zero)%float; try discriminate.
    cbn. rewrite zero_add_eqb, Hz. reflexivity.
Qed.

Lemma leb_lexZ x y : is_nan x = false -> is_nan y = false ->
  (x <=? y)%float = match lexZ (key3 (Prim2SF x)) (key3 (Prim2SF y)) with Gt => false | _ => true end.
Proof.
  intros Hx Hy. rewrite leb_spec. unfold SFleb.
  rewrite SFcompare_key3 by (apply Prim2SF_not_nan; auto).
  destruct (lexZ _ _); reflexivity.
Qed.

Lemma ltb_leb_false x y : (x <? y)%float = true -> (y <=? x)%float = false.
Proof.
  intros H.
  destruct (is_nan x) eqn:Ex; [rewrite ltb_nan_l in H; congruence|].
  destruct (is_nan y) eqn:Ey; [rewrite ltb_nan_r in H; congruence|].
  rewrite ltb_lexZ in H by auto. rewrite leb_lexZ by auto. rewrite lexZ_antisym.
  destruct (lexZ _ _); simpl in *; congruence.
Qed.

Lemma leb_refl_num x : is_nan x = false -> (x <=? x)%float = true.
Proof. intros Hx. rewrite leb_lexZ, lexZ_refl by auto. reflexivity. Qed.

Lemma ltb_total x y : is_nan x = false -> is_nan y = false ->
  (y <? x)%float = false -> (x =? y)%float = false -> (x <? y)%float = true.
Proof.
  intros Hx Hy H1 H2. rewrite ltb_lexZ in * by auto. rewrite eqb_lexZ in H2 by auto.
  rewrite lexZ_antisym in H1. destruct (lexZ _ _); simpl in *; congruence.
Qed.

Lemma getItemRange_bounds {T} (toValue : T -> result jsval) items mn mx :
  ScorV1.getItemRange toValue items = Ok (mn, mx) ->
  isNumeric_f mn = true /\ isNumeric_f mx = true /\ (mx <? mn)%float = false.
Proof.
  intros H. unfold ScorV1.getItemRange in H.
  destruct (map_js toValue items) as [vs|e]; cbn [bind] in H; [|discriminate].
  pose proof (filter_numeric_numeric vs) as Hnum.
  destruct (filter_numeric vs) as [|x xs] eqn:E; [discriminate|].
  injection H as <- <-.
  assert (Hne : x :: xs <> []) by discriminate.
  destruct (math_min_spec _ Hne Hnum) as [Hmin1 _].
  destruct (math_max_spec _ Hne Hnum) as [Hmax1 Hmax2].
  assert (Hn1 : isNumeric_f (math_min (x :: xs)) = true)
    by (eapply Forall_forall in Hnum; eauto).
  assert (Hn2 : isNumeric_f (math_max (x :: xs)) = true)
    by (eapply Forall_forall in Hnum; eauto).
  split; [auto|split; [auto|]].
  destruct (math_max (x :: xs) <? math_min (x :: xs))%float eqn:Elt; auto.
  exfalso. apply (Hmax2 _ Hmin1). apply ltb_jcmp; auto using numeric_not_nan.
Qed.

Lemma map_js_app_err {A B} (g : A -> result B) pre x post e :
  (forall y, In y pre -> exists b, g y = Ok b) -> g x = Err e ->
  map_js g (pre ++ x :: post) = Err e.
Proof.
  intros Hpre Hx. induction pre as [|y pre IH]; cbn; [rewrite Hx; reflexivity|].
  destruct (Hpre y (or_introl eq_refl)) as [b Hb]. rewrite Hb. cbn.
  rewrite IH; [reflexivity|]. intros z Hz. apply Hpre. right. exact Hz.
Qed.

(** X7: When [max - min] overflows to Infinity, [forValue] of [src/scor.ts] returns 0 for inner values whose distance to [min] is finite and NaN for inner values whose distance to [min] overflows. *)
Theorem forValue_wide_range {T} (mn mx : float) (tv : option (T -> result jsval)) :
  isNumeric_f mn = true -> isNumeric_f mx = true -> (mn <? mx)%float = true ->
  (mx - mn)%float = infinity ->
  exists s, ScorV1.scor (ScorV1.mkOptions (Some mn) (Some mx) tv) = Ok s /\
  forall x, isNumeric_f x = true -> (mn <? x)%float = true -> (x <? mx)%float = true ->
    (isNumeric_f (x - mn) = true ->
       exists r, ScorV1.forValue s (JNum x) = Ok r /\ (r =? zero)%float = true) /\
    ((x - mn)%float = infinity ->
       exists r, ScorV1.forValue s (JNum x) = Ok r /\ is_nan r = true).
Proof.
  intros Hmn Hmx Hlt Hw.
  unfold ScorV1.scor. cbn [ScorV1.o_min ScorV1.o_max ScorV1.o_toValue].
  rewrite Hmn, Hmx, (ltb_asym _ _ Hlt), (ltb_not_eqb _ _ Hlt). cbn [negb].
  eexists. split; [reflexivity|].
  intros x Hx H1 H2. cbn [ScorV1.forValue]. unfold forValue_in.
  cbn [to_number isNumeric]. rewrite (ltb_leb_false _ _ H1), (ltb_leb_false _ _ H2), Hx, Hw.
  cbn [negb orb]. split.
  - intros Hd. eexists. split; [reflexivity|].
    rewrite eqb_spec, div_spec, Prim2SF_infinity.
    destruct (numeric_shape _ Hd) as [[s Hs]|[s [m [e Hs]]]]; rewrite Hs; destruct s; reflexivity.
  - intros Hd. rewrite Hd. eexists. split; [reflexivity|]. vm_compute. reflexivity.
Qed.

(** X8: The Score built by [scorForItems] gives 0 to the items whose value is the minimum of the items and 1 to the items whose value is the maximum (0 when all values are equal). *)
Theorem scorForItems_extremes {T} (toValue : T -> result jsval) (items : list T) mn mx s :
  ScorV1.getItemRange toValue items = Ok (mn, mx) ->
  ScorV1.scorForItems toValue items = Ok s ->
  (forall item, toValue item = Ok (JNum mn) -> ScorV1.forItem s item = Ok zero) /\
  (forall item, toValue item = Ok (JNum mx) ->
     ScorV1.forItem s item = Ok (if (mn =? mx)%float then zero else one)).
Proof.
  intros Hr Hs. destruct (getItemRange_bounds _ _ _ _ Hr) as (Hmn & Hmx & Hle).
  pose proof (numeric_not_nan _ Hmn) as Nmn. pose proof (numeric_not_nan _ Hmx) as Nmx.
  unfold not_nan in *.
  unfold ScorV1.scorForItems in Hs. rewrite Hr in Hs. cbn [bind fst snd] in Hs.
  unfold ScorV1.scor in Hs. cbn [ScorV1.o_min ScorV1.o_max ScorV1.o_toValue] in Hs.
  rewrite Hmn, Hmx, Hle in Hs. cbn [negb] in Hs.
  destruct (mn =? mx)%float eqn:Eq; injection Hs as <-; cbn [ScorV1.forItem]; [split; intros; reflexivity|].
  pose proof (ltb_total _ _ Nmn Nmx Hle Eq) as Hlt'.
  split; intros item Hi; cbn; rewrite Hi; cbn [bind]; unfold forValue_in; cbn [to_number isNumeric].
  - rewrite (leb_refl_num _ Nmn). reflexivity.
  - rewrite (ltb_leb_false _ _ Hlt'), Hmx, (leb_refl_num _ Nmx). reflexivity.
Qed.

(** X9: [getItemRange] and [scorForItems] pass on the exception of the first item whose [toValue] throws. *)
Theorem getItemRange_first_error {T} (toValue : T -> result jsval) (pre : list T) (item : T)
    (post : list T) (e : js_error) :
  (forall x, In x pre -> exists v, toValue x = Ok v) -> toValue item = Err e ->
  ScorV1.getItemRange toValue (pre ++ item :: post) = Err e /\
  ScorV1.scorForItems toValue (pre ++ item :: post) = Err e.
Proof.
  intros Hpre Hi.
  assert (H : ScorV1.getItemRange toValue (pre ++ item :: post) = Err e).
  { unfold ScorV1.getItemRange. rewrite (map_js_app_err _ _ _ _ _ Hpre Hi). reflexivity. }
  split; [exact H|]. unfold ScorV1.scorForItems. rewrite H. reflexivity.
Qed.

(** X10: In both snapshots, [setMin] then [setMax] (either order) is [setRange], and a second call of [setMin], [setMax], [setToValue] or [setWeight] overrides the first. *)
Theorem setters_compose {T} :
  (forall (s s1 : ScorV1.Scor T) a b, ScorV1.setMin s a = Ok s1 ->
     ScorV1.setMax s1 b = ScorV1.setRange s a b) /\
  (forall (s s1 : ScorV1.Scor T) a b, ScorV1.setMax s b = Ok s1 ->
     ScorV1.setMin s1 a = ScorV1.setRange s a b) /\
  (forall (s s1 : ScorV1.Scor T) a a', ScorV1.setMin s a = Ok s1 ->
     ScorV1.setMin s1 a' = ScorV1.setMin s a') /\
  (forall (s s1 : ScorV1.Scor T) b b', ScorV1.setMax s b = Ok s1 ->
     ScorV1.setMax s1 b' = ScorV1.setMax s b') /\
  (forall (s s1 : ScorV1.Scor T) tv tv', ScorV1.setToValue s tv = Ok s1 ->
     ScorV1.setToValue s1 tv' = ScorV1.setToValue s tv') /\
  (forall (s s1 : ScorW.Scor T) a b, ScorW.setMin s a = Ok s1 ->
     ScorW.setMax s1 b = ScorW.setRange s a b) /\
  (forall (s s1 : ScorW.Scor T) a b, ScorW.setMax s b = Ok s1 ->
     ScorW.setMin s1 a = ScorW.setRange s a b) /\
  (forall (s s1 : ScorW.Scor T) a a', ScorW.setMin s a = Ok s1 ->
     ScorW.setMin s1 a' = ScorW.setMin s a') /\
  (forall (s s1 : ScorW.Scor T) b b', ScorW.setMax s b = Ok s1 ->
     ScorW.setMax s1 b' = ScorW.setMax s b') /\
  (forall (s s1 : ScorW.Scor T) tv tv', ScorW.setToValue s tv = Ok s1 ->
     ScorW.setToValue s1 tv' = ScorW.setToValue s tv') /\
  (forall (s s1 : ScorW.Scor T) w w', ScorW.setWeight s w = Ok s1 ->
     ScorW.setWeight s1 w' = ScorW.setWeight s w').
Proof.
  repeat split; intros s s1 a b H;
    first [ apply ScorV1_scor_fields in H; destruct H as (H1 & H2 & H3); cbn in H1, H2, H3;
            unfold ScorV1.setMin, ScorV1.setMax, ScorV1.setRange, ScorV1.setToValue;
            rewrite ?H1, ?H2, ?H3; reflexivity
          | apply ScorW_scor_fields in H; destruct H as (H1 & H2 & H3 & H4); cbn in H1, H2, H3, H4;
            unfold ScorW.setMin, ScorW.setMax, ScorW.setRange, ScorW.setToValue, ScorW.setWeight;
            rewrite ?H1, ?H2, ?H3, ?H4; reflexivity ].
Qed.

(** The Scores [scor] builds have closures determined by [min], [max] and [toValue]. *)
Lemma ScorW_scor_forItem {T} (o o' : ScorW.OptionsArg T) s s' :
  ScorW.scor o = Ok s -> ScorW.scor o' = Ok s' ->
  ScorW.o_min o' = ScorW.o_min o -> ScorW.o_max o' = ScorW.o_max o ->
  ScorW.o_toValue o' = ScorW.o_toValue o ->
  ScorW.forItem s' = ScorW.forItem s.
Proof.
  destruct o as [mn mx tv w], o' as [mn' mx' tv' w']. cbn. intros H H' -> -> ->.
  unfold ScorW.scor in H, H'. cbn in H, H'.
  destruct (match mn with Some m => _ | None => false end); [discriminate|].
  destruct (match mx with Some m => _ | None => false end); [discriminate|].
  destruct (match w with Some _ => _ | None => false end); [discriminate|].
  destruct (match w' with Some _ => _ | None => false end); [discriminate|].
  destruct mn as [a|], mx as [b|];
    try (injection H as <-; injection H' as <-; reflexivity).
  destruct (b <? a)%float; [discriminate|].
  destruct (a =? b)%float; injection H as <-; injection H' as <-; reflexivity.
Qed.

Lemma filter_length_all {A} (f : A -> bool) l :
  (List.length l - List.length (filter f l))%nat = 0%nat -> forallb f l = true.
Proof.
  intros H. assert (Hle := filter_length_le f l).
  assert (Heq : List.length (filter f l) = List.length l) by lia. clear H Hle.
  induction l as [|x l IH]; cbn in *; auto.
  destruct (f x); cbn in *.
  - apply IH. lia.
  - pose proof (filter_length_le f l). lia.
Qed.

Lemma Forall2_in_r {A B} (R : A -> B -> Prop) l l' y :
  Forall2 R l l' -> In y l' -> exists x, In x l /\ R x y.
Proof.
  intros H Hy. induction H as [|x y' l l' Hxy _ IH]; [destruct Hy|].
  destruct Hy as [<-|Hy]; [exists x; split; [left|]; auto|].
  destruct (IH Hy) as [z [Hz HR]]. exists z. split; [right|]; auto.
Qed.

(** What [distributeWeights] does to each Score when it returns. *)
Lemma ScorW_distribute_each {T} (c c' : coll (ScorW.Scor T)) :
  ScorW.distributeWeights c = Ok c' ->
  Forall2 (fun s s' => s' = s /\ isNumeric_o (ScorW.weight s) = true \/
                       exists w, ScorW.setWeight s (Some w) = Ok s')
          (values c) (values c').
Proof.
  unfold ScorW.distributeWeights. cbv zeta.
  destruct (Nat.eqb _ 0) eqn:E0.
  - intros H. injection H as <-. apply Nat.eqb_eq, filter_length_all in E0.
    apply Forall2_refl_in with (P := fun _ => True); [apply Forall_forall; auto|].
    intros s Hs _. left. split; [reflexivity|].
    rewrite forallb_forall in E0. apply E0. apply in_map. exact Hs.
  - destruct (reduce_js toNumericSum _ zero) as [sum|e]; cbn [bind]; [|discriminate].
    destruct c as [l|d].
    + destruct (map_js _ l) as [l'|e] eqn:Em; cbn [bind]; [|discriminate].
      intros H. injection H as <-. cbn [values].
      apply map_js_forall2 in Em. eapply Forall2_impl; [|exact Em].
      intros s s' Hs. cbn beta in Hs. destruct (isNumeric_o (ScorW.weight s)) eqn:En.
      * injection Hs as <-. left. auto.
      * right. eexists. exact Hs.
    + destruct (map_js _ d) as [d'|e] eqn:Em; cbn [bind]; [|discriminate].
      intros H. injection H as <-. cbn [values].
      apply map_js_forall2 in Em.
      induction Em as [|[k s] [k' s'] d0 d0' Hs _ IH]; constructor; [|exact IH].
      cbn beta in Hs. cbn [snd fst] in Hs |- *. destruct (isNumeric_o (ScorW.weight s)) eqn:En.
      * cbn [bind] in Hs. injection Hs as <- <-. left. auto.
      * destruct (ScorW.setWeight s _) as [s''|e] eqn:Ew; cbn [bind] in Hs; [|discriminate].
        injection Hs as <- <-. right. eexists. exact Ew.
Qed.

(** X11: When [distributeWeights] over Scores ([src/unnamed/part_001]) returns, every Score of its result has a numeric weight, and applying it again returns the same collection. *)
Theorem distributeWeights_w_idempotent {T} (c c' : coll (ScorW.Scor T)) :
  ScorW.distributeWeights c = Ok c' ->
  forallb (fun s => isNumeric_o (ScorW.weight s)) (values c') = true /\
  ScorW.distributeWeights c' = Ok c'.
Proof.
  intros H.
  assert (Hall : forallb (fun s => isNumeric_o (ScorW.weight s)) (values c') = true).
  { apply forallb_forall. intros s' Hs'.
    pose proof (ScorW_distribute_each c c' H) as H2.
    destruct (Forall2_in_r _ _ _ _ H2 Hs') as [s [_ Hs]].
    destruct Hs as [[-> Hn]|[w Hw]]; [exact Hn|].
    pose proof (ScorW_scor_weight _ _ w Hw eq_refl) as Hv.
    apply ScorW_scor_fields in Hw as (_ & _ & _ & ->). cbn.
    apply valid_weight_numeric. exact Hv. }
  split; [exact Hall|]. apply ScorW_distribute_all_weighted. exact Hall.
Qed.

Lemma ScorW_createToMean_same {T} (c c' : coll (ScorW.Scor T)) :
  Forall2 same_for_mean (values c) (values c') ->
  match ScorW.createToMean c, ScorW.createToMean c' with
  | Ok f, Ok f' => forall item, f' item = f item
  | Err e, Err e' => e' = e
  | _, _ => False
  end.
Proof.
  unfold ScorW.createToMean. generalize (values c) (values c'). intros l l' H.
  rewrite <- (Forall2_length H).
  assert (Hx : forall chk : ScorW.Scor T -> bool,
            (forall s s', same_for_mean s s' -> chk s' = chk s) -> existsb chk l' = existsb chk l).
  { intros chk Hc. induction H as [|s s' r r' Hs _ IH]; cbn; [reflexivity|].
    rewrite (Hc _ _ Hs), IH. reflexivity. }
  rewrite Hx by (intros s s' (H1 & H2 & _); rewrite H1, H2; reflexivity).
  destruct (Nat.eqb _ 0); [reflexivity|]. destruct (existsb _ l); [reflexivity|].
  assert (Hr : forall item acc,
            reduce_js (fun sum score => let* v := ScorW.forItem score item in Ok (sum + v)%float) l' acc =
            reduce_js (fun sum score => let* v := ScorW.forItem score item in Ok (sum + v)%float) l acc).
  { clear Hx. intros item. induction H as [|s s' r r' (_ & _ & Hf) _ IH]; intros acc; cbn; [reflexivity|].
    rewrite Hf. destruct (ScorW.forItem s item); cbn; auto. }
  destruct H as [|s s' r r' Hs H]; [intros item; reflexivity|].
  destruct H as [|t t' r2 r2' Ht H].
  - destruct Hs as (_ & _ & Hf). rewrite Hf. reflexivity.
  - intros item. rewrite Hr. reflexivity.
Qed.

(** X12: For Scores built by [scor] in [src/unnamed/part_001], [createToMean] after [distributeWeights] throws the same errors and computes the same means as [createToMean] on the original Scores. *)
Theorem distributeWeights_then_createToMean {T} (c c' : coll (ScorW.Scor T)) :
  Forall (fun s => exists o, ScorW.scor o = Ok s) (values c) ->
  ScorW.distributeWeights c = Ok c' ->
  (forall e, ScorW.createToMean c' = Err e <-> ScorW.createToMean c = Err e) /\
  (forall f, ScorW.createToMean c = Ok f ->
     exists f', ScorW.createToMean c' = Ok f' /\ forall item, f' item = f item).
Proof.
  intros Hb Hd.
  assert (Hs : Forall2 same_for_mean (values c) (values c')).
  { eapply Forall2_impl_in; [exact Hb|exact (ScorW_distribute_each c c' Hd)|].
    intros s s' [o Ho] [[-> _]|[w Hw]]; [repeat split|].
    pose proof (ScorW_scor_fields _ _ Ho) as (H1 & H2 & H3 & _).
    pose proof (ScorW_scor_fields _ _ Hw) as (H1' & H2' & H3' & _). cbn in H1', H2', H3'.
    split; [congruence|split; [congruence|]].
    eapply ScorW_scor_forItem; [exact Ho|exact Hw|cbn; congruence..]. }
  pose proof (ScorW_createToMean_same c c' Hs) as Hm.
  destruct (ScorW.createToMean c) as [f|e], (ScorW.createToMean c') as [f'|e']; try contradiction.
  - split; [intros e; split; discriminate|]. intros g Hg. injection Hg as <-. eauto.
  - subst. split; [reflexivity|discriminate].
Qed.

Lemma is_nan_Prim2SF x : Prim2SF x = S754_nan -> is_nan x = true.
Proof. intros H. unfold is_nan. rewrite eqb_spec, H. reflexivity. Qed.

Lemma Prim2SF_cases x :
  x = infinity \/ x = neg_infinity \/ is_nan x = true \/ isNumeric_f x = true.
Proof.
  destruct (Prim2SF x) as [s|[]| |s m e] eqn:E.
  - right; right; right. unfold isNumeric_f.
    rewrite !ltb_spec, Prim2SF_infinity, Prim2SF_neg_infinity, E. destruct s; reflexivity.
  - right; left. apply Prim2SF_inj. rewrite E, Prim2SF_neg_infinity. reflexivity.
  - left. apply Prim2SF_inj. rewrite E, Prim2SF_infinity. reflexivity.
  - right; right; left. apply is_nan_Prim2SF. exact E.
  - right; right; right. unfold isNumeric_f.
    rewrite !ltb_spec, Prim2SF_infinity, Prim2SF_neg_infinity, E. destruct s; reflexivity.
Qed.

Lemma neg_infinity_leb x : is_nan x = false -> (neg_infinity <=? x)%float = true.
Proof.
  intros Hx. rewrite leb_spec, Prim2SF_neg_infinity.
  destruct (Prim2SF x) as [[]|[]| |[] m e] eqn:E; try reflexivity.
  rewrite (is_nan_Prim2SF x E) in Hx. discriminate.
Qed.

(** X13: The earlier [scor] (lines 469-567 of [src/scor.ts]) throws only [Error(INVALID_RANGE)], and it throws exactly when [min] or [max] is NaN or both are given with [min > max]. *)
Theorem old_scor_errors {T} (o : ScorOld.OptionsArg T) :
  (forall e, ScorOld.scor o = ScorOld.Throw e -> e = ScorOld.Error ScorOld.INVALID_RANGE) /\
  ((exists e, ScorOld.scor o = ScorOld.Throw e) <->
     (exists mn, ScorOld.o_min o = Some mn /\ is_nan mn = true) \/
     (exists mx, ScorOld.o_max o = Some mx /\ is_nan mx = true) \/
     (exists mn mx, ScorOld.o_min o = Some mn /\ ScorOld.o_max o = Some mx /\ (mx <? mn)%float = true)).
Proof.
  destruct o as [mn mx tv]. unfold ScorOld.scor. cbn [ScorOld.o_min ScorOld.o_max ScorOld.o_toValue].
  destruct mn as [a|], mx as [b|];
    repeat match goal with
           | |- context [is_nan ?x] => let E := fresh "E" in destruct (is_nan x) eqn:E
           | |- context [(?y <? ?x)%float] => let E := fresh "E" in destruct (y <? x)%float eqn:E
           | |- context [(?x =? ?y)%float] => let E := fresh "E" in destruct (x =? y)%float eqn:E
           end;
    (split;
     [ intros e H; first [discriminate | injection H as <-; reflexivity]
     | split;
       [ intros [e H];
         first [ discriminate
               | left; eexists; split; [reflexivity|assumption]
               | right; left; eexists; split; [reflexivity|assumption]
               | right; right; do 2 eexists; split; [reflexivity|split; [reflexivity|assumption]] ]
       | intros [(m & Hm & Hn)|[(m & Hm & Hn)|(m & m' & Hm & Hm' & Hlt)]];
         repeat match goal with H : Some _ = Some _ |- _ => injection H as <- end;
         first [ discriminate | congruence | eexists; reflexivity ] ] ]).
Qed.

(** X14: The earlier [scor] accepts [min = -Infinity], and its [forValue] then returns NaN for every finite value below [max]. *)
Theorem old_scor_neg_infinity_nan {T} (mx : float) (tv : option (T -> result jsval)) :
  is_nan mx = false -> mx <> neg_infinity ->
  exists s, ScorOld.scor (ScorOld.mkOptions (Some neg_infinity) (Some mx) tv) = ScorOld.Ret s /\
  forall x, isNumeric_f x = true -> (x <? mx)%float = true ->
    exists r, ScorOld.forValue s (JNum x) = ScorOld.Ret r /\ is_nan r = true.
Proof.
  intros Hmx Hne.
  assert (Hlt : (mx <? neg_infinity)%float = false).
  { rewrite ltb_spec, Prim2SF_neg_infinity.
    destruct (Prim2SF mx) as [[]|[]| |[] m e]; reflexivity. }
  assert (Heq : (neg_infinity =? mx)%float = false).
  { rewrite eqb_spec, Prim2SF_neg_infinity.
    destruct (Prim2SF mx) as [[]|[]| |[] m e] eqn:E; try reflexivity.
    exfalso. apply Hne. apply Prim2SF_inj. rewrite E, Prim2SF_neg_infinity. reflexivity. }
  unfold ScorOld.scor. cbn [ScorOld.o_min ScorOld.o_max ScorOld.o_toValue].
  rewrite Hmx, Hlt, Heq. change (is_nan neg_infinity) with false. cbn.
  eexists. split; [reflexivity|].
  intros x Hx Hxm. cbn [ScorOld.forValue]. unfold ScorOld.forValue_in, ScorOld.isNaN.
  cbn [to_number].
  assert (Hl : (x <=? neg_infinity)%float = false).
  { rewrite leb_spec, Prim2SF_neg_infinity.
    destruct (numeric_shape x Hx) as [[s Hs]|[s [m [e Hs]]]]; rewrite Hs; destruct s; reflexivity. }
  rewrite Hl, (numeric_not_nan x Hx), (ltb_leb_false _ _ Hxm). cbn [orb].
  eexists. split; [reflexivity|]. apply is_nan_Prim2SF.
  rewrite div_spec, !sub_spec, Prim2SF_neg_infinity.
  destruct (numeric_shape x Hx) as [[s Hs]|[s [m [e Hs]]]]; rewrite Hs;
  destruct (Prim2SF mx) as [[]|[]| |[] m' e'] eqn:E; try reflexivity;
    try (rewrite (is_nan_Prim2SF mx E) in Hmx; discriminate);
    exfalso; apply Hne; apply Prim2SF_inj; rewrite E, Prim2SF_neg_infinity; reflexivity.
Qed.

(** X15: For a finite range [min < max], the earlier [forValue] and the one of [scor] in [src/scor.ts] agree on every value except Infinity (1 before, 0 now) and null (scored like 0 before, 0 now). *)
Theorem old_forValue_vs_current {T} (mn mx : float) (tv : option (T -> result jsval)) :
  isNumeric_f mn = true -> isNumeric_f mx = true -> (mn <? mx)%float = true ->
  exists s0 s1,
    ScorOld.scor (ScorOld.mkOptions (Some mn) (Some mx) tv) = ScorOld.Ret s0 /\
    ScorV1.scor (ScorV1.mkOptions (Some mn) (Some mx) tv) = Ok s1 /\
    (forall v, v <> JNum infinity -> v <> JNull ->
       exists r, ScorOld.forValue s0 v = ScorOld.Ret r /\ ScorV1.forValue s1 v = Ok r) /\
    ScorOld.forValue s0 (JNum infinity) = ScorOld.Ret one /\
    ScorV1.forValue s1 (JNum infinity) = Ok zero /\
    ScorOld.forValue s0 JNull = ScorOld.forValue s0 (JNum zero) /\
    ScorV1.forValue s1 JNull = Ok zero.
Proof.
  intros Hmn Hmx Hlt.
  pose proof (numeric_not_nan _ Hmn) as Nmn. pose proof (numeric_not_nan _ Hmx) as Nmx.
  unfold not_nan in *.
  unfold ScorOld.scor, ScorV1.scor.
  cbn [ScorOld.o_min ScorOld.o_max ScorOld.o_toValue ScorV1.o_min ScorV1.o_max ScorV1.o_toValue].
  rewrite Nmn, Nmx, Hmn, Hmx, (ltb_asym _ _ Hlt), (ltb_not_eqb _ _ Hlt). cbn [negb].
  do 2 eexists. split; [reflexivity|]. split; [reflexivity|].
  cbn [ScorOld.forValue ScorV1.forValue].
  unfold ScorOld.forValue_in, forValue_in, ScorOld.isNaN. cbn [to_number isNumeric].
  assert (Hinf : isNumeric_f infinity = false) by reflexivity.
  assert (Hmxinf : (mx <=? infinity)%float = true).
  { rewrite leb_spec, Prim2SF_infinity.
    destruct (numeric_shape mx Hmx) as [[s Hs]|[s [m [e Hs]]]]; rewrite Hs; destruct s; reflexivity. }
  assert (Hinfmn : (infinity <=? mn)%float = false).
  { rewrite leb_spec, Prim2SF_infinity.
    destruct (numeric_shape mn Hmn) as [[s Hs]|[s [m [e Hs]]]]; rewrite Hs; destruct s; reflexivity. }
  split; [|split; [|split; [|split]]].
  - intros [x| |] Hi Hn;
      [| cbn [to_number isNumeric negb]; change (is_nan nan) with true; rewrite !orb_true_r;
         eexists; split; reflexivity
       | congruence].
    cbn [to_number isNumeric].
    destruct (Prim2SF_cases x) as [->|[->|[Hx|Hx]]]; [congruence| | |].
    + rewrite (neg_infinity_leb _ Nmn). eexists; split; reflexivity.
    + rewrite Hx, orb_true_r.
      replace (isNumeric_f x) with false
        by (unfold isNumeric_f; rewrite ltb_nan_r by exact Hx; reflexivity).
      rewrite orb_true_r. eexists; split; reflexivity.
    + rewrite Hx, (numeric_not_nan x Hx). cbn [negb]. rewrite !orb_false_r.
      destruct (x <=? mn)%float; [eexists; split; reflexivity|].
      destruct (mx <=? x)%float; eexists; split; reflexivity.
  - change (is_nan infinity) with false. rewrite Hinfmn, Hmxinf. reflexivity.
  - rewrite Hinf, orb_true_r. reflexivity.
  - reflexivity.
  - rewrite orb_true_r. reflexivity.
Qed.

Lemma createToMean_missing_key_witness :
  exists s, ScorV1.scor (unit_range half) = Ok s /\
    ScorV1.createToMean (ScorV1.MDict [("a", s)] (Some [("b", one)])) =
    Err (TypeError "Expected same keys scores and weights, but missing key '${key}'.").
Proof.
  destruct (ScorV1.scor (unit_range half)) as [s|e] eqn:Es; [|vm_compute in Es; discriminate].
  exists s. split; [reflexivity|].
  apply (createToMean_missing_key [("a", s)] [("b", one)] "a"); [left; reflexivity | reflexivity].
Defined.

Lemma createToMean_weight_checks_witness :
  exists s, ScorV1.scor (unit_range half) = Ok s /\
    ScorV1.createToMean (ScorV1.MList [s] (Some [one])) = Ok (ScorV1.forItem s) /\
    ScorV1.createToMean (ScorV1.MList [s] (Some [one; one])) =
    Err (TypeError "Expected scores and weights to have same length.").
Proof.
  destruct (ScorV1.scor (unit_range half)) as [s|e] eqn:Es; [|vm_compute in Es; discriminate].
  assert (Hr : forallb score_ready [s] = true) by (vm_compute in Es; injection Es as <-; reflexivity).
  destruct (createToMean_weight_checks [s] [one] ltac:(discriminate) Hr) as (_ & _ & _ & H4).
  destruct (createToMean_weight_checks [s] [one; one] ltac:(discriminate) Hr) as (H1 & _).
  exists s. split; [reflexivity|]. split.
  - exact (H4 s one eq_refl eq_refl eq_refl eq_refl).
  - exact (H1 ltac:(discriminate)).
Defined.

Lemma forValue_wide_range_witness :
  exists s, ScorV1.scor (ScorV1.mkOptions (T := unit) (Some (-0x1.fffffffffffffp1023)%float)
                           (Some 0x1.fffffffffffffp1023%float) None) = Ok s /\
    (exists r, ScorV1.forValue s (JNum one) = Ok r /\ (r =? zero)%float = true) /\
    (exists r, ScorV1.forValue s (JNum big) = Ok r /\ is_nan r = true).
Proof.
  destruct (forValue_wide_range (T := unit) (-0x1.fffffffffffffp1023)%float 0x1.fffffffffffffp1023%float
              None eq_refl eq_refl eq_refl eq_refl) as [s [Hs H]].
  exists s. split; [exact Hs|]. split.
  - exact (proj1 (H one eq_refl eq_refl eq_refl) eq_refl).
  - exact (proj2 (H big eq_refl eq_refl eq_refl) eq_refl).
Defined.

Lemma scorForItems_extremes_witness :
  exists s, ScorV1.scorForItems (fun x => Ok (JNum x)) [one; half] = Ok s /\
    ScorV1.forItem s half = Ok zero /\ ScorV1.forItem s one = Ok one.
Proof.
  assert (H : ScorV1.getItemRange (fun x => Ok (JNum x)) [one; half] = Ok (half, one))
    by (vm_compute; reflexivity).
  destruct (ScorV1.scorForItems (fun x => Ok (JNum x)) [one; half]) as [s|e] eqn:Es;
    [|vm_compute in Es; discriminate].
  destruct (scorForItems_extremes _ _ _ _ _ H Es) as [H1 H2].
  exists s. split; [reflexivity|]. split; [apply H1; reflexivity|].
  rewrite (H2 one eq_refl). reflexivity.
Defined.

Lemma getItemRange_first_error_witness :
  ScorV1.getItemRange (fun b : bool => if b then Ok (JNum one) else Err (Thrown 0)) [true; false; true]
  = Err (Thrown 0) /\
  ScorV1.scorForItems (fun b : bool => if b then Ok (JNum one) else Err (Thrown 0)) [true; false; true]
  = Err (Thrown 0).
Proof.
  apply (getItemRange_first_error (fun b : bool => if b then Ok (JNum one) else Err (Thrown 0))
           [true] false [true] (Thrown 0)); [|reflexivity].
  intros x [<-|[]]. eexists. reflexivity.
Defined.

Lemma distributeWeights_w_idempotent_witness :
  exists s c', ScorW.scor (unit_range_w half None) = Ok s /\
    ScorW.distributeWeights (CList [s]) = Ok c' /\ ScorW.distributeWeights c' = Ok c'.
Proof.
  destruct (ScorW.scor (unit_range_w half None)) as [s|e] eqn:Es; [|vm_compute in Es; discriminate].
  destruct (ScorW.distributeWeights (CList [s])) as [c'|e] eqn:Ed.
  2: { vm_compute in Es. injection Es as <-. vm_compute in Ed. discriminate. }
  exists s, c'. split; [reflexivity|]. split; [exact Ed|].
  exact (proj2 (distributeWeights_w_idempotent _ _ Ed)).
Defined.

Lemma distributeWeights_then_createToMean_witness :
  exists s c', ScorW.scor (unit_range_w half None) = Ok s /\
    ScorW.distributeWeights (CList [s]) = Ok c' /\
    (forall e, ScorW.createToMean c' = Err e <-> ScorW.createToMean (CList [s]) = Err e).
Proof.
  destruct (ScorW.scor (unit_range_w half None)) as [s|e] eqn:Es; [|vm_compute in Es; discriminate].
  destruct (ScorW.distributeWeights (CList [s])) as [c'|e] eqn:Ed.
  2: { vm_compute in Es. injection Es as <-. vm_compute in Ed. discriminate. }
  exists s, c'. split; [reflexivity|]. split; [exact Ed|].
  apply (proj1 (distributeWeights_then_createToMean (CList [s]) c'
                  ltac:(constructor; [exists (unit_range_w half None); exact Es | constructor]) Ed)).
Defined.

Lemma old_scor_neg_infinity_nan_witness :
  exists s, ScorOld.scor (ScorOld.mkOptions (T := unit) (Some neg_infinity) (Some one) None) = ScorOld.Ret s /\
    exists r, ScorOld.forValue s (JNum half) = ScorOld.Ret r /\ is_nan r = true.
Proof.
  destruct (old_scor_neg_infinity_nan (T := unit) one None eq_refl
              ltac:(intros E; assert (B : (one =? neg_infinity)%float = true)
                      by (rewrite E; reflexivity); vm_compute in B; discriminate)) as [s [Hs H]].
  exists s. split; [exact Hs|]. exact (H half eq_refl eq_refl).
Defined.

Lemma old_forValue_vs_current_witness :
  exists s0 s1,
    ScorOld.scor (ScorOld.mkOptions (Some zero) (Some one) (Some (const_value half))) = ScorOld.Ret s0 /\
    ScorV1.scor (unit_range half) = Ok s1 /\
    ScorOld.forValue s0 (JNum infinity) = ScorOld.Ret one /\
    ScorV1.forValue s1 (JNum infinity) = Ok zero.
Proof.
  destruct (old_forValue_vs_current zero one (Some (const_value half)) eq_refl eq_refl eq_refl)
    as (s0 & s1 & H0 & H1 & _ & H3 & H4 & _).
  exists s0, s1. auto.
Defined.
